(** * caphVSink: the indexed view of the audio server and the router built on it

    A shallow embedding of [caphVSink.py].  The audio server reached through
    [pulsectl.Pulse] is a record holding its module table, its sources and
    its source outputs; the methods of [MyPulse] and [Capturer] are functions
    that thread that record, and what [capturer_deltaprint] prints is the
    list of lines it returns.  The listener thread and the endless loop of
    [Capturer.__init__] are not part of the development. *)

From Stdlib Require Import Ascii ZArith.
From stdpp Require Import base option list strings gmap.

(** ** Text *)

Fixpoint has_char (a : ascii) (s : string) : bool :=
  match s with
  | EmptyString => false
  | String c s' => if decide (c = a) then true else has_char a s'
  end.

(** The names the argument format can carry: no space character. *)
Definition spaceless (s : string) : Prop := has_char " "%char s = false.

(** ** The regular expression of [module_items]

    The pattern is a lazy group of non-space characters, the literal [=],
    and a greedy group of non-space characters.

    [match_key] is the lazy group followed by the literal [=]: the shortest
    run of non-space characters that an [=] follows.  It returns the key and
    the text after the [=]. *)
Fixpoint match_key (s : string) : option (string * string) :=
  match s with
  | EmptyString => None
  | String c s' =>
      if decide (c = "="%char) then Some (EmptyString, s')
      else if decide (c = " "%char) then None
      else match match_key s' with
           | Some (k, r) => Some (String c k, r)
           | None => None
           end
  end.

(** The greedy group: the longest run of non-space characters. *)
Fixpoint match_value (s : string) : string :=
  match s with
  | EmptyString => EmptyString
  | String c s' =>
      if decide (c = " "%char) then EmptyString else String c (match_value s')
  end.

(** One attempt of the whole pattern at the start of [s]. *)
Definition match_at (s : string) : option (string * string) :=
  match match_key s with
  | Some (k, r) => Some (k, match_value r)
  | None => None
  end.

(** [re.findall]: scan left to right; where the pattern matches, record the
    two groups and resume at the end of the match, otherwise move one
    character on.  [skip] counts the characters of the current match that
    are still to be passed over. *)
Fixpoint findall_from (skip : nat) (s : string) : list (string * string) :=
  match s with
  | EmptyString => []
  | String _ s' =>
      match skip with
      | S n => findall_from n s'
      | O =>
          match match_at s with
          | Some (k, v) => (k, v) :: findall_from (String.length k + String.length v) s'
          | None => findall_from 0 s'
          end
      end
  end.

Definition re_findall (s : string) : list (string * string) := findall_from 0 s.

(** ** Python dictionaries

    Insertion-ordered: assigning to a key that is present replaces its value
    where it stands, a new key goes to the end. *)
Section pydict.
Context {K V : Type} `{EqDecision K}.

Fixpoint dict_set (k : K) (v : V) (d : list (K * V)) : list (K * V) :=
  match d with
  | [] => [(k, v)]
  | (k', v') :: d' => if decide (k' = k) then (k, v) :: d' else (k', v') :: dict_set k v d'
  end.

Fixpoint dict_get (k : K) (d : list (K * V)) : option V :=
  match d with
  | [] => None
  | (k', v') :: d' => if decide (k' = k) then Some v' else dict_get k d'
  end.

(** [dict(pairs)] and dictionary comprehensions. *)
Definition dict_of (l : list (K * V)) : list (K * V) :=
  foldl (fun d kv => dict_set kv.1 kv.2 d) [] l.

Definition dict_keys (d : list (K * V)) : list K := d.*1.

End pydict.

(** ** The server behind [pulsectl.Pulse] *)

Record Module := mkModule { mod_index : nat; mod_name : string; mod_argument : string }.
Record Source := mkSource { src_index : nat; src_name : string }.
Record SourceOutput := mkSourceOutput { so_index : nat; so_name : string; so_source : nat }.

Global Instance Module_eq_dec : EqDecision Module.
Proof. solve_decision. Defined.
Global Instance Source_eq_dec : EqDecision Source.
Proof. solve_decision. Defined.
Global Instance SourceOutput_eq_dec : EqDecision SourceOutput.
Proof. solve_decision. Defined.

(** The module table is indexed by the server-assigned module index: slot
    [i] holds the name and the argument string of module [i], or nothing
    once it has been unloaded.  Indices are handed out in order and never
    reused.  Loading and unloading touch the module table only; the streams
    and sources the server adds or drops in reaction are changes of its own.
    Every load is accepted, and the methods below only unload indices they
    have just listed. *)
Record Pulse := mkPulse {
  module_table : list (option (string * string));
  sources : list Source;
  source_outputs : list SourceOutput
}.

Fixpoint modules_from (i : nat) (t : list (option (string * string))) : list Module :=
  match t with
  | [] => []
  | Some (n, a) :: t' => mkModule i n a :: modules_from (S i) t'
  | None :: t' => modules_from (S i) t'
  end.

Definition module_list (p : Pulse) : list Module := modules_from 0 (module_table p).
Definition source_list (p : Pulse) : list Source := sources p.
Definition source_output_list (p : Pulse) : list SourceOutput := source_outputs p.

Definition module_load (name args : string) (p : Pulse) : nat * Pulse :=
  (length (module_table p),
   mkPulse (module_table p ++ [Some (name, args)]) (sources p) (source_outputs p)).

Definition module_unload (i : nat) (p : Pulse) : Pulse :=
  mkPulse (<[i := None]> (module_table p)) (sources p) (source_outputs p).

(** ** class MyPulse *)

(** [module_items]: the modules called [name], in listing order, each with
    the dictionary parsed from its argument string. *)
Definition parse_args (argument : string) : list (string * string) :=
  dict_of (re_findall argument).

Definition module_items (name : string) (p : Pulse) : list (list (string * string) * Module) :=
  (fun m => (parse_args (mod_argument m), m))
    <$> filter (fun m => mod_name m = name) (module_list p).

Definition vsink_dict (p : Pulse) : list (option string * Module) :=
  dict_of ((fun em => (dict_get "sink_name" em.1, em.2)) <$> module_items "module-null-sink" p).

Definition loopback_dict (p : Pulse) : list ((option string * option string) * Module) :=
  dict_of ((fun em => ((dict_get "source" em.1, dict_get "sink" em.1), em.2))
             <$> module_items "module-loopback" p).

Definition vsource_dict (p : Pulse) : list (option string * Module) :=
  dict_of ((fun em => (dict_get "source_name" em.1, em.2)) <$> module_items "module-null-source" p).

Definition vsink_args (name : string) : string :=
  "sink_name=" +:+ name +:+ " sink_properties=device.description=" +:+ name.

Definition _vsink_add (name : string) (p : Pulse) : nat * Pulse :=
  module_load "module-null-sink" (vsink_args name) p.

(** A module object is truthy, [None] is not. *)
Definition vsink_add (name : string) (p : Pulse) : nat * Pulse :=
  match dict_get (Some name) (vsink_dict p) with
  | Some curr => (mod_index curr, p)
  | None => _vsink_add name p
  end.

Definition loopback_args (source sink : string) : string :=
  "source=" +:+ source +:+ " sink=" +:+ sink.

Definition _loopback_add (source sink : string) (p : Pulse) : nat * Pulse :=
  module_load "module-loopback" (loopback_args source sink) p.

Definition loopback_add (source sink : string) (p : Pulse) : nat * Pulse :=
  match dict_get (Some source, Some sink) (loopback_dict p) with
  | Some curr => (mod_index curr, p)
  | None => _loopback_add source sink p
  end.

(** The dictionary is built once, before the first unload. *)
Definition vsink_disconnect (sink : string) (p : Pulse) : Pulse :=
  foldl (fun q kv => if decide (kv.1.2 = Some sink) then module_unload (mod_index kv.2) q else q)
        p (loopback_dict p).

Definition vsink_remove (name : string) (p : Pulse) : Pulse :=
  let p1 := vsink_disconnect name p in
  foldl (fun q em =>
           if decide (dict_get "sink_name" em.1 = Some name)
           then module_unload (mod_index em.2) q else q)
        p1 (module_items "module-null-sink" p1).

Definition loopback_remove (source sink : string) (p : Pulse) : Pulse :=
  foldl (fun q kv =>
           if decide (kv.1 = (Some source, Some sink))
           then module_unload (mod_index kv.2) q else q)
        p (loopback_dict p).

Definition vsink_sources (name : string) (p : Pulse) : list (option string * Module) :=
  dict_of ((fun kv => (kv.1.1, kv.2))
             <$> filter (fun kv => kv.1.2 = Some name) (loopback_dict p)).

Definition monitor_of (name : string) : string := name +:+ ".monitor".

Fixpoint first_monitor (mon : string) (l : list Source) : Z :=
  match l with
  | [] => (-1)%Z
  | src :: l' =>
      if decide (src_name src = mon) then Z.of_nat (src_index src) else first_monitor mon l'
  end.

(** The index of the sink's monitor source, [-1] when there is none. *)
Definition vsink_source (name : string) (p : Pulse) : Z :=
  first_monitor (monitor_of name) (source_list p).

Definition is_pavucontrol (c : SourceOutput) : bool := bool_decide (so_name c = "Peak detect").

Section python_sets.
(** The order in which Python iterates over a set is not specified: it is a
    parameter, some rearrangement of the elements. *)
Variable set_order : forall A : Type, list A -> list A.

(** The stream objects are compared by identity, so the set [apps] keeps
    every listed stream that passes the test. *)
Definition vsink_apps (name : string) (p : Pulse) : list (string * SourceOutput) :=
  let idx := vsink_source name p in
  let apps := set_order _ (filter (fun c => Z.of_nat (so_source c) = idx) (source_output_list p)) in
  dict_of ((fun c => (so_name c, c)) <$> filter (fun c => is_pavucontrol c = false) apps).

(** An empty dictionary is falsy. *)
Definition vsink_safe_remove (name : string) (p : Pulse) : list (string * SourceOutput) * Pulse :=
  let apps := vsink_apps name p in
  match apps with
  | [] => (apps, vsink_remove name p)
  | _ :: _ => (apps, p)
  end.

(** ** class Capturer *)

Record Capturer := mkCapturer {
  pulse : Pulse;
  srcs : gset (option string);
  apps : gset string
}.

Definition capturer_connect (name : string) (p : Pulse) : Pulse :=
  foldl (fun q src =>
           if decide (src_name src ≠ monitor_of name)
           then (loopback_add (src_name src) name q).2 else q)
        p (source_list p).

(** [str] of a dictionary key that may be [None]. *)
Definition str_key (k : option string) : string :=
  match k with Some s => s | None => "None" end.

(** The four kinds of line. *)
Definition line_connected_source (prefix : string) (src : option string) : string :=
  prefix +:+ "Connected source    " +:+ str_key src.
Definition line_disconnected_source (prefix : string) (src : option string) : string :=
  prefix +:+ "Disconnected source " +:+ str_key src.
Definition line_connected_app (prefix : string) (app : string) : string :=
  prefix +:+ "Connected app       " +:+ app.
Definition line_disconnected_app (prefix : string) (app : string) : string :=
  prefix +:+ "Disconnected app    " +:+ app.

(** The lines printed, in order. *)
Definition capturer_deltaprint (self : Capturer) (old_srcs : gset (option string))
    (old_apps : gset string) (prefix : string) : list string :=
  (line_connected_source prefix <$> set_order _ (elements (srcs self ∖ old_srcs)))
  ++ (line_disconnected_source prefix <$> set_order _ (elements (old_srcs ∖ srcs self)))
  ++ (line_connected_app prefix <$> set_order _ (elements (apps self ∖ old_apps)))
  ++ (line_disconnected_app prefix <$> set_order _ (elements (old_apps ∖ apps self))).

Definition capturer_refresh (name : string) (self : Capturer) : Capturer * list string :=
  let old_srcs := srcs self in
  let old_apps := apps self in
  let p := capturer_connect name (pulse self) in
  let self' := mkCapturer p (list_to_set (dict_keys (vsink_sources name p)))
                            (list_to_set (dict_keys (vsink_apps name p))) in
  (self', capturer_deltaprint self' old_srcs old_apps "  ").

End python_sets.

(** ** The argument format read token by token

    [split_space] cuts a string at every space character, as
    [str.split(' ')] does; [split_eq] cuts a token at its first [=]. *)
Fixpoint split_space (s : string) : list string :=
  match s with
  | EmptyString => [EmptyString]
  | String c s' =>
      if decide (c = " "%char) then EmptyString :: split_space s'
      else match split_space s' with
           | t :: ts => String c t :: ts
           | [] => [String c EmptyString]
           end
  end.

Fixpoint split_eq (t : string) : option (string * string) :=
  match t with
  | EmptyString => None
  | String c t' =>
      if decide (c = "="%char) then Some (EmptyString, t')
      else match split_eq t' with
           | Some (k, v) => Some (String c k, v)
           | None => None
           end
  end.

Definition space_items (arg : string) : list (string * string) :=
  omap split_eq (split_space arg).

Fixpoint join_space (ts : list string) : string :=
  match ts with
  | [] => EmptyString
  | [t] => t
  | t :: ts' => t +:+ String " "%char (join_space ts')
  end.

(** The parsing contract in the words of the specification: tokens are
    separated by white space (space, tab, line feed, vertical tab, form feed,
    carriage return). *)
Definition whitespace_items (arg : string) : list (string * string) :=
  omap split_eq (String.words arg).

Definition whitespace_args (arg : string) : list (string * string) :=
  dict_of (whitespace_items arg).

(** ** What a module is, read from its arguments *)

Definition route_pair (m : Module) : option string * option string :=
  (dict_get "source" (parse_args (mod_argument m)),
   dict_get "sink" (parse_args (mod_argument m))).

Definition is_loopback (m : Module) : Prop := mod_name m = "module-loopback".
Definition is_null_sink (m : Module) : Prop := mod_name m = "module-null-sink".

(** A loopback route whose target is [sink]. *)
Definition is_route_into (sink : string) (m : Module) : Prop :=
  is_loopback m /\ (route_pair m).2 = Some sink.

(** A loopback route for the pair [(source, sink)]. *)
Definition is_route (source sink : string) (m : Module) : Prop :=
  is_loopback m /\ route_pair m = (Some source, Some sink).

(** A null-sink module carrying the name [name]. *)
Definition is_sink_named (name : string) (m : Module) : Prop :=
  is_null_sink m /\ dict_get "sink_name" (parse_args (mod_argument m)) = Some name.

Global Instance is_route_into_dec sink m : Decision (is_route_into sink m).
Proof. unfold is_route_into, is_loopback. apply _. Defined.
Global Instance is_route_dec source sink m : Decision (is_route source sink m).
Proof. unfold is_route, is_loopback. apply _. Defined.
Global Instance is_sink_named_dec name m : Decision (is_sink_named name m).
Proof. unfold is_sink_named, is_null_sink. apply _. Defined.

Definition sink_count (name : string) (p : Pulse) : nat :=
  length (filter (is_sink_named name) (module_list p)).

Definition route_count (source sink : string) (p : Pulse) : nat :=
  length (filter (is_route source sink) (module_list p)).

(** At most one route per pair, for the routes into [sink]: no two
    loopback modules listed with target [sink] carry the same source. *)
Definition routes_unique (sink : string) (p : Pulse) : Prop :=
  NoDup (route_pair <$> filter (is_route_into sink) (module_list p)).

Global Instance routes_unique_dec sink p : Decision (routes_unique sink p).
Proof. unfold routes_unique. apply _. Defined.

(** ** Servers used as examples *)

(** An iteration order for sets: the order of listing. *)
Definition list_order : forall A : Type, list A -> list A := fun _ l => l.

(** Nothing loaded, a microphone and the monitor of [X]. *)
Definition fresh_server : Pulse :=
  mkPulse [] [mkSource 0 "mic"; mkSource 1 "X.monitor"] [].

(** The sink [X] with a route from the microphone, and a route into
    another sink. *)
Definition routed_server : Pulse :=
  mkPulse [Some ("module-null-sink", "sink_name=X sink_properties=device.description=X");
           Some ("module-loopback", "source=mic sink=X");
           Some ("module-loopback", "source=mic sink=Y")]
          [mkSource 0 "mic"; mkSource 1 "X.monitor"] [].

(** The same with streams: two recorders and the level meter of
    pavucontrol on the monitor of [X], another stream on the microphone. *)
Definition busy_server : Pulse :=
  mkPulse (module_table routed_server) (sources routed_server)
          [mkSourceOutput 0 "Recorder" 1; mkSourceOutput 1 "Peak detect" 1;
           mkSourceOutput 2 "Recorder" 1; mkSourceOutput 3 "Other" 0].

(** The route from the microphone into [X] loaded twice. *)
Definition doubled_route : Pulse :=
  mkPulse [Some ("module-null-sink", "sink_name=X sink_properties=device.description=X");
           Some ("module-loopback", "source=mic sink=X");
           Some ("module-loopback", "source=mic sink=X")]
          [mkSource 0 "mic"; mkSource 1 "X.monitor"] [].

(** No sink [X] and no monitor of it; one stream on the microphone. *)
Definition gone_server : Pulse :=
  mkPulse [] [mkSource 0 "mic"] [mkSourceOutput 0 "Recorder" 0].

(** The sink [X] is gone, a route into it is still listed. *)
Definition stale_route : Pulse :=
  mkPulse [Some ("module-loopback", "source=mic sink=X")] [mkSource 0 "mic"] [].

(** The snapshot after the first pass on a server with one recorder. *)
Definition first_snapshot : Capturer :=
  mkCapturer busy_server {[Some "mic"]} {["Recorder"]}.

(** Two arguments separated by a tab. *)
Definition tab_separated : string := "a=1" +:+ String "009"%char "b=2".

(** Where a token ends: at the end of the string or before a space. *)
Definition boundary (r : string) : Prop :=
  r = EmptyString \/ exists r', r = String " "%char r'.

(** Decidable facts about concrete servers are settled by evaluation. *)
Ltac by_decide := apply (bool_decide_unpack _); vm_compute; exact I.


(** ** Starting and stopping the capturer

    [Capturer.__init__] up to its loop, and the handler of the interrupt
    that ends the loop.  What is printed is the list of the texts handed to
    [print], one per call. *)

Definition newline : string := String "010"%char EmptyString.

Section capturer_life.
Variable set_order : forall A : Type, list A -> list A.

Definition capturer_start (name : string) (p : Pulse) : Capturer * list string :=
  let p1 := (vsink_add name p).2 in
  let p2 := capturer_connect name p1 in
  let self := mkCapturer p2 ∅ ∅ in
  let r := capturer_refresh set_order name self in
  (r.1,
   ["You may now use [" +:+ name +:+ "] as audio source. Quit with ctrl-C.";
    newline +:+ "Connections:"] ++ r.2).

(** Iterating over the dictionary of consumers yields its keys; the
    [print] with [sep] joins them into one text. *)
Definition capturer_interrupt (name : string) (self : Capturer) : Capturer * list string :=
  let r := vsink_safe_remove set_order name (pulse self) in
  let self' := mkCapturer r.2 (srcs self) (apps self) in
  match r.1 with
  | [] => (self', ["...ending..."; "Connection killed"; newline +:+ "Finished"])
  | _ :: _ =>
      (self',
       ["...ending...";
        "Some apps are still using this connection:" +:+ newline;
        String.concat newline ((fun app => "  " +:+ app) <$> dict_keys r.1);
        newline +:+ "Connection left alive"])
  end.

End capturer_life.

(** ** More servers used as examples *)

(** A null-source module besides the sink [X]. *)
Definition source_server : Pulse :=
  mkPulse [Some ("module-null-source", "source_name=S");
           Some ("module-null-sink", "sink_name=X sink_properties=device.description=X");
           Some ("module-null-source", "source_name=S description=second")]
          [mkSource 0 "mic"; mkSource 1 "X.monitor"] [].

(** The sink [X] loaded twice. *)
Definition doubled_sink : Pulse :=
  mkPulse [Some ("module-null-sink", "sink_name=X");
           Some ("module-loopback", "source=mic sink=X");
           Some ("module-null-sink", "sink_name=X sink_properties=device.description=X")]
          [mkSource 0 "mic"; mkSource 1 "X.monitor"] [].

(** No sink, and one source whose name begins like the monitor of [X]. *)
Definition lookalike_source : Pulse :=
  mkPulse [] [mkSource 0 "X.monitor extra"] [].

(** * Properties *)

(** ** Strings *)

Lemma string_app_nil_l (s : string) : EmptyString +:+ s = s.
Proof. reflexivity. Qed.

Lemma string_app_cons (c : ascii) (s t : string) : String c s +:+ t = String c (s +:+ t).
Proof. reflexivity. Qed.

Lemma string_app_nil_r (s : string) : s +:+ EmptyString = s.
Proof. induction s as [|c s IH]; [done|]. by rewrite string_app_cons, IH. Qed.

Lemma string_app_assoc (s t u : string) : (s +:+ t) +:+ u = s +:+ t +:+ u.
Proof. induction s as [|c s IH]; [done|]. by rewrite !string_app_cons, IH. Qed.

Lemma string_length_app (s t : string) :
  String.length (s +:+ t) = String.length s + String.length t.
Proof. induction s as [|c s IH]; [done|]. rewrite string_app_cons. simpl. by rewrite IH. Qed.

Lemma string_app_inv_r (s t u : string) : s +:+ u = t +:+ u -> s = t.
Proof.
  revert t. induction s as [|c s IH]; intros [|d t] H; [done| | |].
  - apply (f_equal String.length) in H.
    rewrite string_app_cons, string_app_nil_l in H. simpl in H.
    rewrite string_length_app in H. lia.
  - apply (f_equal String.length) in H.
    rewrite string_app_cons, string_app_nil_l in H. simpl in H.
    rewrite string_length_app in H. lia.
  - rewrite !string_app_cons in H. injection H as -> H. f_equal. by apply IH.
Qed.

Lemma has_char_app (a : ascii) (s t : string) :
  has_char a (s +:+ t) = has_char a s || has_char a t.
Proof.
  induction s as [|c s IH]; [done|].
  rewrite string_app_cons. simpl. by case_decide.
Qed.

Lemma spaceless_app (s t : string) : spaceless s -> spaceless t -> spaceless (s +:+ t).
Proof. unfold spaceless. intros Hs Ht. by rewrite has_char_app, Hs, Ht. Qed.

(** ** Tokens *)

Lemma split_space_nonempty (s : string) : split_space s <> [].
Proof.
  induction s as [|c s IH]; simpl; [done|].
  case_decide; [done|]. by destruct (split_space s).
Qed.

Lemma split_space_spaceless (s : string) : Forall spaceless (split_space s).
Proof.
  induction s as [|c s IH]; simpl.
  - by repeat constructor.
  - case_decide as Hc.
    + by constructor.
    + destruct (split_space s) as [|t ts]; inversion IH; subst.
      * repeat constructor. unfold spaceless. simpl. by rewrite decide_False.
      * constructor; [|done]. unfold spaceless in *. simpl. by rewrite decide_False.
Qed.

Lemma join_split_space (s : string) : join_space (split_space s) = s.
Proof.
  induction s as [|c s IH]; simpl; [done|].
  case_decide as Hc.
  - subst c. pose proof (split_space_nonempty s).
    destruct (split_space s) as [|t ts] eqn:E; [done|].
    simpl in *. by rewrite IH.
  - pose proof (split_space_nonempty s).
    destruct (split_space s) as [|t ts] eqn:E; [done|].
    destruct ts; simpl in *; by rewrite <- IH.
Qed.

Lemma split_space_token (t : string) : spaceless t -> split_space t = [t].
Proof.
  unfold spaceless. induction t as [|c t IH]; simpl; [done|].
  case_decide; [done|]. intros H'. by rewrite IH.
Qed.

Lemma split_space_app (t s : string) :
  spaceless t -> split_space (t +:+ String " "%char s) = t :: split_space s.
Proof.
  unfold spaceless. induction t as [|c t IH]; simpl.
  - done.
  - case_decide; [done|]. intros H'. by rewrite IH.
Qed.

Lemma split_eq_app (k v : string) :
  has_char "="%char k = false -> split_eq (k +:+ String "="%char v) = Some (k, v).
Proof.
  induction k as [|c k IH]; simpl.
  - done.
  - case_decide; [done|]. intros H'. by rewrite IH.
Qed.

Lemma split_eq_Some (t k v : string) :
  split_eq t = Some (k, v) -> t = k +:+ String "="%char v /\ has_char "="%char k = false.
Proof.
  revert k. induction t as [|c t IH]; intros k; simpl; [done|].
  case_decide as Hc.
  - intros [= <- <-]. by subst c.
  - destruct (split_eq t) as [[k' v']|]; [|done].
    intros [= <- <-]. destruct (IH k' eq_refl) as [-> Hk].
    split; [done|]. simpl. by rewrite decide_False.
Qed.

Lemma split_eq_None (t : string) : split_eq t = None <-> has_char "="%char t = false.
Proof.
  induction t as [|c t IH]; simpl; [done|].
  case_decide; [done|]. destruct (split_eq t) as [[k v]|].
  - split; [done|]. intros H'. by apply IH in H'.
  - split; [|done]. intros _. by apply IH.
Qed.

(** ** The pattern against tokens *)


Lemma match_key_token (t r : string) :
  spaceless t -> boundary r ->
  match_key (t +:+ r) =
    match split_eq t with Some (k, v) => Some (k, v +:+ r) | None => None end.
Proof.
  unfold spaceless. intros Ht Hr. induction t as [|c t IH]; simpl in *.
  - destruct Hr as [->|[r' ->]]; done.
  - destruct (decide (c = " "%char)); [done|].
    case_decide; [done|]. rewrite IH by done.
    by destruct (split_eq t) as [[k v]|].
Qed.

Lemma match_value_token (v r : string) :
  spaceless v -> boundary r -> match_value (v +:+ r) = v.
Proof.
  unfold spaceless. intros Hv Hr. induction v as [|c v IH]; simpl in *.
  - destruct Hr as [->|[r' ->]]; done.
  - case_decide; [done|]. by rewrite IH.
Qed.

Lemma match_at_token (t r : string) :
  spaceless t -> boundary r -> match_at (t +:+ r) = split_eq t.
Proof.
  intros Ht Hr. unfold match_at. rewrite match_key_token by done.
  destruct (split_eq t) as [[k v]|] eqn:E; [|done].
  apply split_eq_Some in E as [-> _].
  unfold spaceless in Ht. rewrite has_char_app in Ht.
  apply orb_false_iff in Ht as [_ Hv]. simpl in Hv.
  by rewrite match_value_token.
Qed.

Lemma findall_skip (x r : string) (n : nat) :
  findall_from (String.length x + n) (x +:+ r) = findall_from n r.
Proof. induction x as [|c x IH]; simpl; done. Qed.

Lemma findall_space (r : string) : findall_from 0 (String " "%char r) = findall_from 0 r.
Proof. done. Qed.

Lemma findall_from_cons (c : ascii) (s : string) :
  findall_from 0 (String c s) =
    match match_at (String c s) with
    | Some (k, v) => (k, v) :: findall_from (String.length k + String.length v) s
    | None => findall_from 0 s
    end.
Proof. done. Qed.

Lemma findall_token (t r : string) :
  spaceless t -> boundary r ->
  findall_from 0 (t +:+ r) = option_list (split_eq t) ++ findall_from 0 r.
Proof.
  intros Ht Hr. destruct (split_eq t) as [[k v]|] eqn:E.
  - pose proof (match_at_token t r Ht Hr) as Hm. rewrite E in Hm.
    pose proof (split_eq_Some _ _ _ E) as [Heq _].
    assert (String.length t = S (String.length k + String.length v)) as Hlen.
    { rewrite Heq, string_length_app. simpl. lia. }
    destruct t as [|c t]; [done|].
    rewrite string_app_cons in Hm |- *. rewrite findall_from_cons, Hm.
    simpl in Hlen |- *. f_equal.
    injection Hlen as <-. by rewrite <- (findall_skip t r 0), Nat.add_0_r.
  - simpl. apply split_eq_None in E. induction t as [|c t IH]; [done|].
    pose proof (match_at_token (String c t) r Ht Hr) as Hm.
    rewrite (proj2 (split_eq_None _) E) in Hm.
    rewrite string_app_cons in Hm |- *. rewrite findall_from_cons, Hm.
    unfold spaceless in Ht. simpl in Ht, E.
    repeat case_decide; try done. by apply IH.
Qed.

Lemma findall_join (ts : list string) :
  Forall spaceless ts -> findall_from 0 (join_space ts) = omap split_eq ts.
Proof.
  induction 1 as [|t ts Ht Hts IH]; [done|].
  destruct ts as [|t' ts].
  - simpl join_space. rewrite <- (string_app_nil_r t) at 1.
    rewrite findall_token by (done || by left). simpl.
    destruct (split_eq t); simpl; by rewrite ?app_nil_r.
  - change (join_space (t :: t' :: ts)) with (t +:+ String " "%char (join_space (t' :: ts))).
    rewrite findall_token by (done || right; eauto).
    rewrite findall_space, IH. simpl. by destruct (split_eq t).
Qed.

(** [re.findall] with the pattern of [module_items] yields, for each
    space-separated token holding an [=], the text before its first [=] and
    the text after it, in order; other tokens yield nothing. *)
Lemma re_findall_tokens (arg : string) : re_findall arg = space_items arg.
Proof.
  unfold re_findall, space_items.
  rewrite <- (join_split_space arg) at 1.
  apply findall_join, split_space_spaceless.
Qed.

(** ** Dictionaries *)

Section pydict_facts.
Context {K V : Type} `{EqDecision K}.
Implicit Types (k : K) (v : V) (d l : list (K * V)).

Lemma dict_get_set k k' v d :
  dict_get k (dict_set k' v d) = if decide (k' = k) then Some v else dict_get k d.
Proof.
  induction d as [|[k0 v0] d IH]; csimpl.
  - done.
  - destruct (decide (k0 = k')) as [->|Hne]; csimpl.
    + by destruct (decide (k' = k)).
    + rewrite IH. destruct (decide (k0 = k)) as [->|]; [|done].
      by rewrite decide_False by done.
Qed.

Lemma dict_get_None k d : dict_get k d = None <-> k ∉ d.*1.
Proof.
  induction d as [|[k0 v0] d IH]; csimpl.
  - split; [|done]. intros _. apply not_elem_of_nil.
  - rewrite not_elem_of_cons. case_decide as Hk.
    + split; [done|]. by intros [? _].
    + rewrite IH. split; [by intros ?|by intros [_ ?]].
Qed.

Lemma dict_get_Some_elem k v d : dict_get k d = Some v -> (k, v) ∈ d.
Proof.
  induction d as [|[k0 v0] d IH]; csimpl; [done|].
  case_decide; [intros [= ->]; subst; left | right; auto].
Qed.

Lemma dict_get_elem k v d : NoDup d.*1 -> (k, v) ∈ d -> dict_get k d = Some v.
Proof.
  induction d as [|[k0 v0] d IH]; csimpl.
  - by intros _ ?%elem_of_nil.
  - intros [Hk Hd]%NoDup_cons [[= -> ->]|Hin]%elem_of_cons.
    + by rewrite decide_True.
    + rewrite decide_False; [by apply IH|].
      intros ->. apply Hk. by apply (list_elem_of_fmap_2 fst _ (k, v)).
Qed.

Lemma dict_set_keys k v d :
  (dict_set k v d).*1 = if decide (k ∈ d.*1) then d.*1 else d.*1 ++ [k].
Proof.
  induction d as [|[k0 v0] d IH]; csimpl.
  - destruct (decide (k ∈ [])) as [Hin|]; [by apply elem_of_nil in Hin|done].
  - destruct (decide (k0 = k)) as [->|Hne]; csimpl.
    + destruct (decide (k ∈ k :: d.*1)) as [|Hn]; [done|]. destruct Hn. by left.
    + rewrite IH. destruct (decide (k ∈ d.*1)) as [Hin|Hin].
      * destruct (decide (k ∈ k0 :: d.*1)) as [|Hn]; [done|]. destruct Hn. by right.
      * destruct (decide (k ∈ k0 :: d.*1)) as [Hn|]; [|done].
        apply elem_of_cons in Hn as [->|]; done.
Qed.

Lemma dict_set_fresh k v d : k ∉ d.*1 -> dict_set k v d = d ++ [(k, v)].
Proof.
  induction d as [|[k0 v0] d IH]; csimpl; [done|].
  rewrite not_elem_of_cons. intros [Hne Hk].
  rewrite decide_False by done. by rewrite IH.
Qed.

Lemma dict_of_snoc l k v : dict_of (l ++ [(k, v)]) = dict_set k v (dict_of l).
Proof. unfold dict_of. by rewrite foldl_snoc. Qed.

Lemma dict_of_keys_NoDup l : NoDup (dict_of l).*1.
Proof.
  induction l as [|[k v] l IH] using rev_ind.
  - constructor.
  - rewrite dict_of_snoc, dict_set_keys. case_decide; [done|].
    apply NoDup_app. split_and!; [done| |apply NoDup_singleton].
    intros x Hx ->%list_elem_of_singleton. done.
Qed.

Lemma dict_of_keys_elem l k : k ∈ (dict_of l).*1 <-> k ∈ l.*1.
Proof.
  induction l as [|[k0 v0] l IH] using rev_ind; [done|].
  rewrite dict_of_snoc, dict_set_keys, fmap_app, elem_of_app. csimpl.
  rewrite list_elem_of_singleton. case_decide as Hin.
  - rewrite IH. split; [auto|]. intros [?| ->]; [done|]. by apply IH.
  - by rewrite elem_of_app, IH, list_elem_of_singleton.
Qed.

Lemma dict_of_NoDup l : NoDup l.*1 -> dict_of l = l.
Proof.
  induction l as [|[k v] l IH] using rev_ind; [done|].
  rewrite fmap_app. intros (Hl & Hk & _)%NoDup_app.
  rewrite dict_of_snoc, IH by done. apply dict_set_fresh.
  intros Hin. apply (Hk k Hin). by left.
Qed.

(** Selecting entries by a test on the key commutes with building the
    dictionary. *)
Lemma dict_set_filter_key (P : K -> Prop) `{!forall k, Decision (P k)} k v d :
  filter (fun kv => P kv.1) (dict_set k v d) =
    if decide (P k) then dict_set k v (filter (fun kv => P kv.1) d)
    else filter (fun kv => P kv.1) d.
Proof.
  induction d as [|[k0 v0] d IH]; csimpl.
  - rewrite filter_cons, filter_nil. csimpl. by destruct (decide (P k)).
  - destruct (decide (k0 = k)) as [->|Hne].
    + rewrite !filter_cons. csimpl. destruct (decide (P k)); [|done].
      csimpl. by rewrite decide_True.
    + rewrite !filter_cons, IH. csimpl.
      destruct (decide (P k0)), (decide (P k)); csimpl; try done.
      by rewrite decide_False.
Qed.

Lemma dict_of_filter_key (P : K -> Prop) `{!forall k, Decision (P k)} l :
  filter (fun kv => P kv.1) (dict_of l) = dict_of (filter (fun kv => P kv.1) l).
Proof.
  induction l as [|[k v] l IH] using rev_ind; [done|].
  rewrite dict_of_snoc, dict_set_filter_key, filter_app, filter_cons, filter_nil, IH. csimpl.
  destruct (decide (P k)); [by rewrite dict_of_snoc|by rewrite app_nil_r].
Qed.

Lemma dict_get_of_snoc l k k' v :
  dict_get k (dict_of (l ++ [(k', v)])) =
    if decide (k' = k) then Some v else dict_get k (dict_of l).
Proof. by rewrite dict_of_snoc, dict_get_set. Qed.

Lemma dict_get_of_None l k : dict_get k (dict_of l) = None <-> k ∉ l.*1.
Proof. by rewrite dict_get_None, dict_of_keys_elem. Qed.

Lemma dict_get_of_Some l k v : dict_get k (dict_of l) = Some v -> (k, v) ∈ l.
Proof.
  induction l as [|[k0 v0] l IH] using rev_ind; [done|].
  rewrite dict_get_of_snoc, elem_of_app, list_elem_of_singleton.
  case_decide; [intros [= ->]; subst; by right | by left; apply IH].
Qed.

Lemma dict_of_elem l k v : (k, v) ∈ dict_of l -> (k, v) ∈ l.
Proof.
  intros Hin. apply dict_get_of_Some, dict_get_elem; [apply dict_of_keys_NoDup|done].
Qed.

End pydict_facts.

(** ** Lists *)

Lemma filter_ext_elem {A} (P Q : A -> Prop) `{!forall x, Decision (P x), !forall x, Decision (Q x)}
    (l : list A) :
  (forall x, x ∈ l -> P x <-> Q x) -> filter P l = filter Q l.
Proof.
  induction l as [|a l IH]; intros HPQ; [done|].
  rewrite !filter_cons, IH by (intros x Hx; apply HPQ; by right).
  apply decide_ext, HPQ. by left.
Qed.

Lemma filter_all {A} (P : A -> Prop) `{!forall x, Decision (P x)} (l : list A) :
  (forall x, x ∈ l -> P x) -> filter P l = l.
Proof.
  induction l as [|a l IH]; intros HP; [done|].
  rewrite filter_cons_True by (apply HP; by left).
  f_equal. apply IH. intros x Hx. apply HP. by right.
Qed.

(** Dropping the elements whose key is among the keys of those satisfying
    [P] drops exactly the elements satisfying [P], when keys are unique. *)
Lemma filter_by_key {A B} `{EqDecision B} (f : A -> B) (P : A -> Prop)
    `{!forall x, Decision (P x)} (l : list A) :
  NoDup (f <$> l) ->
  filter (fun x => f x ∉ f <$> filter P l) l = filter (fun x => ¬ P x) l.
Proof.
  intros Hnd. apply filter_ext_elem. intros x Hx. split.
  - intros Hn HP. apply Hn, list_elem_of_fmap_2, list_elem_of_filter. done.
  - intros HnP (y & Hxy & [HPy Hy]%list_elem_of_filter)%list_elem_of_fmap.
    assert (x = y) as ->; [|done].
    clear HnP HPy. induction l as [|a l IH]; [by apply elem_of_nil in Hx|].
    rewrite fmap_cons in Hnd. apply NoDup_cons in Hnd as [Ha Hnd].
    apply elem_of_cons in Hx as [->|Hx]; apply elem_of_cons in Hy as [->|Hy]; try done.
    + destruct Ha. rewrite Hxy. by apply list_elem_of_fmap_2.
    + destruct Ha. rewrite <- Hxy. by apply list_elem_of_fmap_2.
    + by apply IH.
Qed.

(** ** The module table *)

Lemma modules_from_snoc (j : nat) (t : list (option (string * string))) (n a : string) :
  modules_from j (t ++ [Some (n, a)]) = modules_from j t ++ [mkModule (j + length t) n a].
Proof.
  revert j. induction t as [|[[n' a']|] t IH]; intros j; simpl.
  - by rewrite Nat.add_0_r.
  - by rewrite IH, Nat.add_succ_r.
  - by rewrite IH, Nat.add_succ_r.
Qed.

Lemma modules_from_ge (j : nat) (t : list (option (string * string))) (m : Module) :
  m ∈ modules_from j t -> j <= mod_index m.
Proof.
  revert j. induction t as [|[[n a]|] t IH]; intros j; simpl.
  - by intros ?%elem_of_nil.
  - intros [->|Hin%IH]%elem_of_cons; simpl; lia.
  - intros Hin%IH. lia.
Qed.

Lemma modules_from_NoDup (j : nat) (t : list (option (string * string))) :
  NoDup (mod_index <$> modules_from j t).
Proof.
  revert j. induction t as [|[[n a]|] t IH]; intros j; csimpl.
  - constructor.
  - constructor; [|done].
    intros (m & Hm & Hin%modules_from_ge)%list_elem_of_fmap. simpl in Hm. lia.
  - done.
Qed.

Lemma modules_from_unload (j k : nat) (t : list (option (string * string))) :
  modules_from j (<[k := None]> t) = filter (fun m => mod_index m ≠ j + k) (modules_from j t).
Proof.
  revert j k. induction t as [|o t IH]; intros j k; [done|].
  destruct k as [|k]; simpl.
  - rewrite Nat.add_0_r.
    assert (filter (fun m => mod_index m ≠ j) (modules_from (S j) t) = modules_from (S j) t) as Hkeep.
    { apply filter_all. intros m Hm%modules_from_ge. lia. }
    destruct o as [[n a]|]; [|done].
    rewrite filter_cons_False by (simpl; intros ?; done). done.
  - rewrite IH, Nat.add_succ_r. destruct o as [[n a]|]; [|done].
    rewrite filter_cons_True by (simpl; lia). done.
Qed.

Lemma module_list_NoDup (p : Pulse) : NoDup (mod_index <$> module_list p).
Proof. apply modules_from_NoDup. Qed.

Lemma module_list_load (n a : string) (p : Pulse) :
  module_list (module_load n a p).2 =
    module_list p ++ [mkModule (module_load n a p).1 n a].
Proof. apply modules_from_snoc. Qed.

Lemma module_list_unload (i : nat) (p : Pulse) :
  module_list (module_unload i p) = filter (fun m => mod_index m ≠ i) (module_list p).
Proof. apply (modules_from_unload 0). Qed.

(** A loop that unloads the modules picked by [pick] out of a listing made
    beforehand drops the modules with those indices and nothing else. *)
Lemma unload_loop {A} (pick : A -> Prop) `{!forall x, Decision (pick x)} (idx : A -> nat)
    (l : list A) (p : Pulse) :
  let p' := foldl (fun q x => if decide (pick x) then module_unload (idx x) q else q) p l in
  module_list p' = filter (fun m => mod_index m ∉ idx <$> filter pick l) (module_list p)
  /\ sources p' = sources p /\ source_outputs p' = source_outputs p.
Proof.
  revert p. induction l as [|x l IH]; intros p; simpl.
  - split; [|done]. symmetry. apply filter_all. intros m _. apply not_elem_of_nil.
  - destruct (IH (if decide (pick x) then module_unload (idx x) p else p)) as (Hm & Hs & Ho).
    rewrite Hm, Hs, Ho. rewrite filter_cons. destruct (decide (pick x)).
    + split; [|done]. rewrite module_list_unload, list_filter_filter.
      apply list_filter_iff. intros m. rewrite fmap_cons, not_elem_of_cons. tauto.
    + done.
Qed.

Lemma unload_loop_none {A} (pick : A -> Prop) `{!forall x, Decision (pick x)} (idx : A -> nat)
    (l : list A) (p : Pulse) :
  (forall x, x ∈ l -> ¬ pick x) ->
  foldl (fun q x => if decide (pick x) then module_unload (idx x) q else q) p l = p.
Proof.
  induction l as [|x l IH]; intros Hl; simpl; [done|].
  rewrite decide_False by (apply Hl; by left).
  apply IH. intros y Hy. apply Hl. by right.
Qed.

Lemma filter_fmap {A B} (f : A -> B) (P : B -> Prop) `{!forall y, Decision (P y)} (l : list A) :
  filter P (f <$> l) = f <$> filter (fun x => P (f x)) l.
Proof.
  induction l as [|a l IH]; [done|].
  rewrite fmap_cons, !filter_cons, IH. by destruct (decide (P (f a))).
Qed.

(** ** The indexes *)

Lemma vsink_dict_eq (p : Pulse) :
  vsink_dict p =
    dict_of ((fun m => (dict_get "sink_name" (parse_args (mod_argument m)), m))
               <$> filter is_null_sink (module_list p)).
Proof. unfold vsink_dict, module_items. by rewrite <- list_fmap_compose. Qed.

Lemma loopback_dict_eq (p : Pulse) :
  loopback_dict p =
    dict_of ((fun m => (route_pair m, m)) <$> filter is_loopback (module_list p)).
Proof. unfold loopback_dict, module_items. by rewrite <- list_fmap_compose. Qed.

(** The routes into [sink] as [loopback_dict] holds them. *)
Lemma loopback_dict_into (sink : string) (p : Pulse) :
  filter (fun kv => kv.1.2 = Some sink) (loopback_dict p) =
    dict_of ((fun m => (route_pair m, m)) <$> filter (is_route_into sink) (module_list p)).
Proof.
  rewrite loopback_dict_eq.
  pose proof (dict_of_filter_key (fun k : option string * option string => k.2 = Some sink)
                ((fun m => (route_pair m, m)) <$> filter is_loopback (module_list p))) as Hf.
  simpl in Hf. rewrite Hf. clear Hf.
  f_equal. rewrite filter_fmap, list_filter_filter. simpl.
  f_equal. apply list_filter_iff. intros m. unfold is_route_into. tauto.
Qed.

(** The indices unloaded by [vsink_disconnect] when pairs are unique. *)
Lemma disconnect_picks (sink : string) (p : Pulse) :
  routes_unique sink p ->
  (fun kv : (option string * option string) * Module => mod_index kv.2)
    <$> filter (fun kv => kv.1.2 = Some sink) (loopback_dict p)
  = mod_index <$> filter (is_route_into sink) (module_list p).
Proof.
  intros Hu. rewrite loopback_dict_into, dict_of_NoDup.
  - by rewrite <- list_fmap_compose.
  - by rewrite <- list_fmap_compose.
Qed.

Lemma vsink_disconnect_modules (sink : string) (p : Pulse) :
  routes_unique sink p ->
  module_list (vsink_disconnect sink p) =
    filter (fun m => ¬ is_route_into sink m) (module_list p).
Proof.
  intros Hu. unfold vsink_disconnect.
  destruct (unload_loop (fun kv : (option string * option string) * Module => kv.1.2 = Some sink)
              (fun kv => mod_index kv.2) (loopback_dict p) p) as (-> & _ & _).
  rewrite disconnect_picks by done.
  apply (filter_by_key mod_index), module_list_NoDup.
Qed.

Lemma vsink_disconnect_streams (sink : string) (p : Pulse) :
  sources (vsink_disconnect sink p) = sources p
  /\ source_outputs (vsink_disconnect sink p) = source_outputs p.
Proof.
  unfold vsink_disconnect.
  by destruct (unload_loop (fun kv : (option string * option string) * Module => kv.1.2 = Some sink)
              (fun kv => mod_index kv.2) (loopback_dict p) p) as (_ & -> & ->).
Qed.

Lemma remove_picks (name : string) (p : Pulse) :
  (fun em : list (string * string) * Module => mod_index em.2)
    <$> filter (fun em => dict_get "sink_name" em.1 = Some name) (module_items "module-null-sink" p)
  = mod_index <$> filter (is_sink_named name) (module_list p).
Proof.
  unfold module_items.
  rewrite filter_fmap, <- list_fmap_compose, list_filter_filter. simpl.
  f_equal. apply list_filter_iff. intros m. unfold is_sink_named, is_null_sink. tauto.
Qed.

Lemma vsink_remove_modules (name : string) (p : Pulse) :
  routes_unique name p ->
  module_list (vsink_remove name p) =
    filter (fun m => ¬ is_route_into name m /\ ¬ is_sink_named name m) (module_list p).
Proof.
  intros Hu. unfold vsink_remove. cbv zeta.
  destruct (unload_loop
              (fun em : list (string * string) * Module => dict_get "sink_name" em.1 = Some name)
              (fun em => mod_index em.2)
              (module_items "module-null-sink" (vsink_disconnect name p))
              (vsink_disconnect name p)) as (-> & _ & _).
  rewrite remove_picks, (filter_by_key mod_index) by apply module_list_NoDup.
  rewrite vsink_disconnect_modules, list_filter_filter by done.
  apply list_filter_iff. tauto.
Qed.

Lemma vsink_remove_streams (name : string) (p : Pulse) :
  sources (vsink_remove name p) = sources p
  /\ source_outputs (vsink_remove name p) = source_outputs p.
Proof.
  unfold vsink_remove. cbv zeta.
  destruct (unload_loop
              (fun em : list (string * string) * Module => dict_get "sink_name" em.1 = Some name)
              (fun em => mod_index em.2)
              (module_items "module-null-sink" (vsink_disconnect name p))
              (vsink_disconnect name p)) as (_ & -> & ->).
  apply vsink_disconnect_streams.
Qed.

(** ** The arguments written by [_vsink_add] and [_loopback_add] *)

Lemma vsink_args_items (name : string) :
  spaceless name ->
  re_findall (vsink_args name) =
    [("sink_name", name); ("sink_properties", "device.description=" +:+ name)].
Proof.
  intros Hn. rewrite re_findall_tokens. unfold space_items, vsink_args.
  change ("sink_name=" +:+ name +:+ " sink_properties=device.description=" +:+ name)
    with ("sink_name=" +:+ name +:+ String " "%char ("sink_properties=device.description=" +:+ name)).
  rewrite <- string_app_assoc.
  rewrite split_space_app by (by apply spaceless_app).
  rewrite split_space_token by (by apply spaceless_app).
  done.
Qed.

Lemma vsink_args_name (name : string) :
  spaceless name -> dict_get "sink_name" (parse_args (vsink_args name)) = Some name.
Proof. intros Hn. unfold parse_args. by rewrite vsink_args_items. Qed.

Lemma loopback_args_items (source sink : string) :
  spaceless source -> spaceless sink ->
  re_findall (loopback_args source sink) = [("source", source); ("sink", sink)].
Proof.
  intros Hs Ht. rewrite re_findall_tokens. unfold space_items, loopback_args.
  change ("source=" +:+ source +:+ " sink=" +:+ sink)
    with ("source=" +:+ source +:+ String " "%char ("sink=" +:+ sink)).
  rewrite <- string_app_assoc.
  rewrite split_space_app by (by apply spaceless_app).
  rewrite split_space_token by (by apply spaceless_app).
  done.
Qed.

Lemma loopback_args_pair (source sink : string) (i : nat) :
  spaceless source -> spaceless sink ->
  route_pair (mkModule i "module-loopback" (loopback_args source sink)) = (Some source, Some sink).
Proof.
  intros Hs Ht. unfold route_pair, parse_args. simpl mod_argument.
  by rewrite loopback_args_items.
Qed.

(** ** Creation *)

Lemma vsink_dict_load (a : string) (p : Pulse) :
  let r := module_load "module-null-sink" a p in
  vsink_dict r.2 =
    dict_set (dict_get "sink_name" (parse_args a)) (mkModule r.1 "module-null-sink" a) (vsink_dict p).
Proof.
  cbv zeta. rewrite !vsink_dict_eq, module_list_load, filter_app, fmap_app.
  rewrite filter_cons_True by done. rewrite filter_nil, list_fmap_singleton.
  by rewrite dict_of_snoc.
Qed.

Lemma loopback_dict_load (a : string) (p : Pulse) :
  let r := module_load "module-loopback" a p in
  loopback_dict r.2 =
    dict_set (route_pair (mkModule r.1 "module-loopback" a)) (mkModule r.1 "module-loopback" a)
             (loopback_dict p).
Proof.
  cbv zeta. rewrite !loopback_dict_eq, module_list_load, filter_app, fmap_app.
  rewrite filter_cons_True by done. rewrite filter_nil, list_fmap_singleton.
  by rewrite dict_of_snoc.
Qed.

Lemma vsink_dict_found (name : string) (curr : Module) (p : Pulse) :
  dict_get (Some name) (vsink_dict p) = Some curr ->
  curr ∈ module_list p /\ is_sink_named name curr.
Proof.
  rewrite vsink_dict_eq.
  intros (m & Heq & [Hm Hin]%list_elem_of_filter)%dict_get_of_Some%list_elem_of_fmap.
  assert (curr = m) as -> by congruence.
  split; [done|]. split; [done|]. congruence.
Qed.

Lemma vsink_dict_missing (name : string) (p : Pulse) :
  dict_get (Some name) (vsink_dict p) = None <-> sink_count name p = 0.
Proof.
  rewrite vsink_dict_eq, dict_get_of_None, <- list_fmap_compose. unfold sink_count.
  rewrite length_zero_iff_nil. split.
  - intros Hn. apply elem_of_nil_inv. intros m [[Hs Hk] Hin]%list_elem_of_filter.
    apply Hn, list_elem_of_fmap. exists m. split; [done|]. by apply list_elem_of_filter.
  - intros Hnil (m & Hk & [Hs Hin]%list_elem_of_filter)%list_elem_of_fmap.
    apply (filter_nil_not_elem_of _ _ m Hnil); [|done]. by split.
Qed.

Lemma loopback_dict_found (source sink : string) (curr : Module) (p : Pulse) :
  dict_get (Some source, Some sink) (loopback_dict p) = Some curr ->
  curr ∈ module_list p /\ is_route source sink curr.
Proof.
  rewrite loopback_dict_eq.
  intros (m & Heq & [Hm Hin]%list_elem_of_filter)%dict_get_of_Some%list_elem_of_fmap.
  assert (curr = m) as -> by congruence.
  split; [done|]. split; [done|]. congruence.
Qed.

Lemma loopback_dict_missing (source sink : string) (p : Pulse) :
  dict_get (Some source, Some sink) (loopback_dict p) = None <-> route_count source sink p = 0.
Proof.
  rewrite loopback_dict_eq, dict_get_of_None, <- list_fmap_compose. unfold route_count.
  rewrite length_zero_iff_nil. split.
  - intros Hn. apply elem_of_nil_inv. intros m [[Hs Hk] Hin]%list_elem_of_filter.
    apply Hn, list_elem_of_fmap. exists m. split; [done|]. by apply list_elem_of_filter.
  - intros Hnil (m & Hk & [Hs Hin]%list_elem_of_filter)%list_elem_of_fmap.
    apply (filter_nil_not_elem_of _ _ m Hnil); [|done]. by split.
Qed.

Lemma count_pos {A} (P : A -> Prop) `{!forall x, Decision (P x)} (l : list A) (x : A) :
  x ∈ l -> P x -> 0 < length (filter P l).
Proof.
  intros Hin HP. assert (x ∈ filter P l) as Hx by by apply list_elem_of_filter.
  destruct (filter P l); [by apply elem_of_nil in Hx|simpl; lia].
Qed.

(** ** Idempotent creation *)


(** C2, as stated, fails: for the sink name [my sink] the second call of
    [vsink_add] does not find the module the first call loaded, returns
    another handle and loads a second module. *)
Lemma vsink_add_twice_spaced_name :
  let r1 := vsink_add "my sink" fresh_server in
  let r2 := vsink_add "my sink" r1.2 in
  r2.1 ≠ r1.1 /\ length (filter is_null_sink (module_list r2.2)) = 2.
Proof. vm_compute. split; [lia|done]. Qed.

(** C2, amended: for every sink name without a space character, and a
    server that lists at most one null-sink module with that name, two
    calls of [vsink_add] in a row return the same handle, the second call
    changes nothing, exactly one null-sink module then carries the name
    and the handle is its index; when a sink with that name already exists
    the first call creates nothing either. *)
Theorem vsink_add_idempotent (name : string) (p : Pulse) :
  spaceless name ->
  sink_count name p <= 1 ->
  let r1 := vsink_add name p in
  let r2 := vsink_add name r1.2 in
  r2.1 = r1.1 /\ r2.2 = r1.2
  /\ sink_count name r2.2 = 1
  /\ (exists m, m ∈ module_list r2.2 /\ is_sink_named name m /\ mod_index m = r1.1)
  /\ (sink_count name p = 1 -> r1.2 = p).
Proof.
  intros Hn Hc. cbv zeta.
  destruct (dict_get (Some name) (vsink_dict p)) as [curr|] eqn:E.
  - assert (vsink_add name p = (mod_index curr, p)) as Hr1.
    { unfold vsink_add. by rewrite E. }
    rewrite !Hr1. simpl. rewrite !Hr1. simpl.
    destruct (vsink_dict_found _ _ _ E) as [Hin Hs].
    pose proof (count_pos (is_sink_named name) _ _ Hin Hs) as Hpos.
    split_and!; [done|done|unfold sink_count in *; lia|by exists curr|done].
  - apply vsink_dict_missing in E as Hz. unfold _vsink_add.
    pose proof (vsink_dict_load (vsink_args name) p) as Hd. cbv zeta in Hd.
    rewrite vsink_args_name in Hd by done.
    pose proof (module_list_load "module-null-sink" (vsink_args name) p) as Hl.
    remember (module_load "module-null-sink" (vsink_args name) p) as r eqn:Er.
    assert (is_sink_named name (mkModule r.1 "module-null-sink" (vsink_args name))) as Hnew.
    { split; [done|]. by apply vsink_args_name. }
    assert (vsink_add name p = r) as Hr1.
    { unfold vsink_add. by rewrite E. }
    assert (vsink_add name r.2 = (r.1, r.2)) as Hr2.
    { unfold vsink_add. by rewrite Hd, dict_get_set, decide_True. }
    rewrite !Hr1, !Hr2. simpl.
    assert (sink_count name r.2 = 1) as Hone.
    { unfold sink_count in *. rewrite Hl, filter_app, length_app, Hz.
      by rewrite filter_cons_True. }
    split_and!; [done|done|done| |lia].
    exists (mkModule r.1 "module-null-sink" (vsink_args name)). split_and!; [|done|done].
    rewrite Hl. apply elem_of_app. right. by left.
Qed.

Lemma vsink_add_idempotent_witness :
  let r1 := vsink_add "caphVSink" fresh_server in
  let r2 := vsink_add "caphVSink" r1.2 in
  r2.1 = r1.1 /\ r2.2 = r1.2
  /\ sink_count "caphVSink" r2.2 = 1
  /\ (exists m, m ∈ module_list r2.2 /\ is_sink_named "caphVSink" m /\ mod_index m = r1.1)
  /\ (sink_count "caphVSink" fresh_server = 1 -> r1.2 = fresh_server).
Proof.
  apply (vsink_add_idempotent "caphVSink" fresh_server).
  - reflexivity.
  - vm_compute. lia.
Defined.

(** C3, as stated, fails: for the source name [my mic] the second call of
    [loopback_add] loads a second loopback module for the pair. *)
Lemma loopback_add_twice_spaced_name :
  let r1 := loopback_add "my mic" "X" fresh_server in
  let r2 := loopback_add "my mic" "X" r1.2 in
  r2.1 ≠ r1.1 /\ length (filter is_loopback (module_list r2.2)) = 2.
Proof. vm_compute. split; [lia|done]. Qed.

(** C3, amended: for every source and sink name without a space character,
    and a server that lists at most one loopback module for the pair, two
    calls of [loopback_add] in a row return the same handle, the second
    call changes nothing, exactly one loopback module for the pair is then
    listed and the handle is its index; an existing route is not
    duplicated. *)
Theorem loopback_add_idempotent (source sink : string) (p : Pulse) :
  spaceless source ->
  spaceless sink ->
  route_count source sink p <= 1 ->
  let r1 := loopback_add source sink p in
  let r2 := loopback_add source sink r1.2 in
  r2.1 = r1.1 /\ r2.2 = r1.2
  /\ route_count source sink r2.2 = 1
  /\ (exists m, m ∈ module_list r2.2 /\ is_route source sink m /\ mod_index m = r1.1)
  /\ (route_count source sink p = 1 -> r1.2 = p).
Proof.
  intros Hs Ht Hc. cbv zeta.
  destruct (dict_get (Some source, Some sink) (loopback_dict p)) as [curr|] eqn:E.
  - assert (loopback_add source sink p = (mod_index curr, p)) as Hr1.
    { unfold loopback_add. by rewrite E. }
    rewrite !Hr1. simpl. rewrite !Hr1. simpl.
    destruct (loopback_dict_found _ _ _ _ E) as [Hin Hr].
    pose proof (count_pos (is_route source sink) _ _ Hin Hr) as Hpos.
    split_and!; [done|done|unfold route_count in *; lia|by exists curr|done].
  - apply loopback_dict_missing in E as Hz. unfold _loopback_add.
    pose proof (loopback_dict_load (loopback_args source sink) p) as Hd. cbv zeta in Hd.
    rewrite loopback_args_pair in Hd by done.
    pose proof (module_list_load "module-loopback" (loopback_args source sink) p) as Hl.
    remember (module_load "module-loopback" (loopback_args source sink) p) as r eqn:Er.
    assert (is_route source sink (mkModule r.1 "module-loopback" (loopback_args source sink)))
      as Hnew.
    { split; [done|]. by apply loopback_args_pair. }
    assert (loopback_add source sink p = r) as Hr1.
    { unfold loopback_add. by rewrite E. }
    assert (loopback_add source sink r.2 = (r.1, r.2)) as Hr2.
    { unfold loopback_add. by rewrite Hd, dict_get_set, decide_True. }
    rewrite !Hr1, !Hr2. simpl.
    assert (route_count source sink r.2 = 1) as Hone.
    { unfold route_count in *. rewrite Hl, filter_app, length_app, Hz.
      by rewrite filter_cons_True. }
    split_and!; [done|done|done| |lia].
    exists (mkModule r.1 "module-loopback" (loopback_args source sink)). split_and!; [|done|done].
    rewrite Hl. apply elem_of_app. right. by left.
Qed.

Lemma loopback_add_idempotent_witness :
  let r1 := loopback_add "mic" "X" fresh_server in
  let r2 := loopback_add "mic" "X" r1.2 in
  r2.1 = r1.1 /\ r2.2 = r1.2
  /\ route_count "mic" "X" r2.2 = 1
  /\ (exists m, m ∈ module_list r2.2 /\ is_route "mic" "X" m /\ mod_index m = r1.1)
  /\ (route_count "mic" "X" fresh_server = 1 -> r1.2 = fresh_server).
Proof.
  apply (loopback_add_idempotent "mic" "X" fresh_server).
  - reflexivity.
  - reflexivity.
  - vm_compute. lia.
Defined.

(** ** Disconnecting *)


(** C9, as stated, fails: [loopback_dict] keeps one module per pair, so of
    two loopback modules for the same pair [vsink_disconnect] unloads the
    one listed last and the other route into the sink stays. *)
Lemma vsink_disconnect_doubled_route :
  let m := mkModule 1 "module-loopback" "source=mic sink=X" in
  m ∈ module_list doubled_route /\ is_route_into "X" m
  /\ m ∈ module_list (vsink_disconnect "X" doubled_route).
Proof.
  cbv zeta. split_and!.
  - vm_compute. right. left.
  - split; vm_compute; done.
  - vm_compute. right. left.
Qed.

(** C9, amended: for every sink name, on a server where no two loopback
    modules with that sink as target carry the same (source, sink) pair,
    [vsink_disconnect] unloads every loopback route whose target is that
    sink and no other module: routes into other sinks and the null-sink
    module itself stay listed. *)
Theorem vsink_disconnect_frame (sink : string) (p : Pulse) :
  routes_unique sink p ->
  let p' := vsink_disconnect sink p in
  module_list p' = filter (fun m => ¬ is_route_into sink m) (module_list p)
  /\ (forall m, m ∈ module_list p -> is_route_into sink m -> m ∉ module_list p')
  /\ (forall m, m ∈ module_list p -> ¬ is_route_into sink m -> m ∈ module_list p')
  /\ (forall m other, m ∈ module_list p -> other ≠ sink -> is_route_into other m ->
        m ∈ module_list p')
  /\ (forall m, m ∈ module_list p -> is_null_sink m -> m ∈ module_list p')
  /\ sources p' = sources p /\ source_outputs p' = source_outputs p.
Proof.
  intros Hu p'. subst p'.
  pose proof (vsink_disconnect_modules sink p Hu) as Hm.
  destruct (vsink_disconnect_streams sink p) as [Hs Ho].
  rewrite Hm. split_and!; [done| | | | |done|done].
  - intros m _ Hr [Hn _]%list_elem_of_filter. done.
  - intros m Hin Hn. by apply list_elem_of_filter.
  - intros m other Hin Hne [_ Ho'] . apply list_elem_of_filter. split; [|done].
    intros [_ Hr]. congruence.
  - intros m Hin Hk. apply list_elem_of_filter. split; [|done].
    intros [Hl _]. unfold is_null_sink, is_loopback in *. congruence.
Qed.


(** With no null-sink module of that name and no route into it listed,
    [vsink_remove] unloads nothing. *)
Lemma vsink_remove_absent (name : string) (p : Pulse) :
  (forall m, m ∈ module_list p -> ¬ is_sink_named name m /\ ¬ is_route_into name m) ->
  vsink_remove name p = p.
Proof.
  intros Habs. unfold vsink_remove. cbv zeta.
  assert (vsink_disconnect name p = p) as ->.
  { unfold vsink_disconnect.
    apply (unload_loop_none (fun kv : (option string * option string) * Module => kv.1.2 = Some name)).
    intros [k m] Hin Hk. rewrite loopback_dict_eq in Hin.
    apply dict_of_elem, list_elem_of_fmap in Hin as (m' & Heq & [Hl Hm]%list_elem_of_filter).
    assert (m = m') as <- by congruence. assert (k = route_pair m) as -> by congruence.
    destruct (Habs m Hm) as [_ Hn]. by apply Hn. }
  apply (unload_loop_none
           (fun em : list (string * string) * Module => dict_get "sink_name" em.1 = Some name)).
  intros [e m] (m' & Heq & [Hl Hm]%list_elem_of_filter)%list_elem_of_fmap Hk.
  assert (m = m') as <- by congruence. assert (e = parse_args (mod_argument m)) as -> by congruence.
  destruct (Habs m Hm) as [Hn _]. by apply Hn.
Qed.

Lemma module_list_index_inj (p : Pulse) (m m' : Module) :
  m ∈ module_list p -> m' ∈ module_list p -> mod_index m = mod_index m' -> m = m'.
Proof.
  pose proof (module_list_NoDup p) as Hnd. intros Hm Hm' Hi.
  induction (module_list p) as [|a l IH]; [by apply elem_of_nil in Hm|].
  rewrite fmap_cons in Hnd. apply NoDup_cons in Hnd as [Ha Hnd].
  apply elem_of_cons in Hm as [->|Hm]; apply elem_of_cons in Hm' as [->|Hm']; try done.
  - destruct Ha. rewrite Hi. by apply list_elem_of_fmap_2.
  - destruct Ha. rewrite <- Hi. by apply list_elem_of_fmap_2.
  - by apply IH.
Qed.

(** Whatever the listing, [vsink_remove] unloads nothing but routes into
    the sink and null-sink modules with its name. *)
Lemma vsink_remove_frame (name : string) (p : Pulse) (m : Module) :
  m ∈ module_list p -> ¬ is_route_into name m -> ¬ is_sink_named name m ->
  m ∈ module_list (vsink_remove name p).
Proof.
  intros Hm Hr Hs.
  assert (m ∈ module_list (vsink_disconnect name p)) as Hm1.
  { unfold vsink_disconnect.
    destruct (unload_loop (fun kv : (option string * option string) * Module => kv.1.2 = Some name)
                (fun kv => mod_index kv.2) (loopback_dict p) p) as (-> & _ & _).
    apply list_elem_of_filter. split; [|done].
    intros ([k m'] & Hi & [Hk Hin]%list_elem_of_filter)%list_elem_of_fmap. simpl in Hi, Hk.
    rewrite loopback_dict_eq in Hin.
    apply dict_of_elem, list_elem_of_fmap in Hin as (m'' & Heq & [Hl Hm'']%list_elem_of_filter).
    assert (m' = m'') as <- by congruence. assert (k = route_pair m') as -> by congruence.
    assert (m = m') as <- by by apply (module_list_index_inj p).
    by apply Hr. }
  unfold vsink_remove. cbv zeta.
  destruct (unload_loop
              (fun em : list (string * string) * Module => dict_get "sink_name" em.1 = Some name)
              (fun em => mod_index em.2)
              (module_items "module-null-sink" (vsink_disconnect name p))
              (vsink_disconnect name p)) as (-> & _ & _).
  apply list_elem_of_filter. split; [|done].
  intros ([e m'] & Hi & [Hk Hin]%list_elem_of_filter)%list_elem_of_fmap. simpl in Hi, Hk.
  apply list_elem_of_fmap in Hin as (m'' & Heq & [Hl Hm'']%list_elem_of_filter).
  assert (m' = m'') as <- by congruence. assert (e = parse_args (mod_argument m')) as -> by congruence.
  assert (m = m') as <- by by apply (module_list_index_inj (vsink_disconnect name p)).
  by apply Hs.
Qed.

(** ** Consumers *)

Lemma first_monitor_none (mon : string) (l : list Source) :
  first_monitor mon l = (-1)%Z <-> forall src, src ∈ l -> src_name src ≠ mon.
Proof.
  induction l as [|s l IH]; simpl.
  - split; [|done]. by intros _ src ?%elem_of_nil.
  - case_decide as Hs.
    + split; [lia|]. intros Hn. destruct (Hn s); [by left|done].
    + rewrite IH. split.
      * intros Hn src [->|Hin]%elem_of_cons; auto.
      * intros Hn src Hin. apply Hn. by right.
Qed.

Lemma dict_entry_single {K V : Type} `{EqDecision K} (k : K) (v : V) (d : list (K * V)) :
  NoDup d.*1 -> dict_get k d = Some v -> filter (fun kv => kv.1 = k) d = [(k, v)].
Proof.
  induction d as [|[k0 v0] d IH]; csimpl; [done|].
  intros [Hk Hd]%NoDup_cons. case_decide as Hk0.
  - intros [= ->]. subst k0. rewrite filter_cons_True by done. f_equal.
    apply elem_of_nil_inv. intros [k' v'] [Hk' Hin]%list_elem_of_filter. simpl in Hk'. subst k'.
    apply Hk. by apply (list_elem_of_fmap_2 fst _ (k, v')).
  - intros Hg. rewrite filter_cons_False by done. by apply IH.
Qed.

Section consumers.
Variable set_order : forall A : Type, list A -> list A.
Hypothesis set_order_perm : forall (A : Type) (l : list A), set_order A l ≡ₚ l.

(** The streams that pass both tests of [vsink_apps]. *)
Lemma vsink_apps_eq (name : string) (p : Pulse) :
  vsink_apps set_order name p =
    dict_of ((fun c => (so_name c, c))
      <$> filter (fun c => is_pavucontrol c = false)
            (set_order _ (filter (fun c => Z.of_nat (so_source c) = vsink_source name p)
                                 (source_output_list p)))).
Proof. done. Qed.

Lemma vsink_apps_kept (name : string) (p : Pulse) (c : SourceOutput) :
  c ∈ filter (fun c => is_pavucontrol c = false)
        (set_order _ (filter (fun c => Z.of_nat (so_source c) = vsink_source name p)
                             (source_output_list p)))
  <-> c ∈ source_output_list p /\ Z.of_nat (so_source c) = vsink_source name p
      /\ so_name c ≠ "Peak detect".
Proof.
  rewrite list_elem_of_filter, set_order_perm, list_elem_of_filter.
  unfold is_pavucontrol. rewrite bool_decide_eq_false. tauto.
Qed.

Lemma vsink_apps_elem (name : string) (p : Pulse) (k : string) (c : SourceOutput) :
  (k, c) ∈ vsink_apps set_order name p ->
  k = so_name c /\ c ∈ source_output_list p
  /\ Z.of_nat (so_source c) = vsink_source name p /\ so_name c ≠ "Peak detect".
Proof.
  rewrite vsink_apps_eq.
  intros (c' & [= -> <-] & Hc%vsink_apps_kept)%dict_of_elem%list_elem_of_fmap.
  tauto.
Qed.

Lemma vsink_apps_lookup (name : string) (p : Pulse) (c : SourceOutput) :
  c ∈ source_output_list p -> Z.of_nat (so_source c) = vsink_source name p ->
  so_name c ≠ "Peak detect" ->
  exists c', dict_get (so_name c) (vsink_apps set_order name p) = Some c'.
Proof.
  intros Hin Hs Hn.
  destruct (dict_get (so_name c) (vsink_apps set_order name p)) as [c'|] eqn:E; [by eexists|].
  rewrite vsink_apps_eq in E. apply dict_get_of_None in E. destruct E.
  rewrite <- list_fmap_compose. apply list_elem_of_fmap. exists c.
  split; [done|]. by apply vsink_apps_kept.
Qed.

Lemma vsink_apps_unresolved (name : string) (p : Pulse) :
  vsink_source name p = (-1)%Z -> vsink_apps set_order name p = [].
Proof.
  intros Hu. rewrite vsink_apps_eq, Hu.
  assert (filter (fun c => Z.of_nat (so_source c) = (-1)%Z) (source_output_list p) = []) as ->.
  { apply elem_of_nil_inv. intros c [Hc _]%list_elem_of_filter. lia. }
  pose proof (set_order_perm SourceOutput []) as ->%Permutation_nil_r. done.
Qed.

Lemma vsink_safe_remove_busy (name : string) (p : Pulse) :
  vsink_apps set_order name p ≠ [] ->
  vsink_safe_remove set_order name p = (vsink_apps set_order name p, p).
Proof. unfold vsink_safe_remove. by destruct (vsink_apps set_order name p). Qed.

Lemma vsink_safe_remove_unused (name : string) (p : Pulse) :
  vsink_apps set_order name p = [] ->
  vsink_safe_remove set_order name p = ([], vsink_remove name p).
Proof. unfold vsink_safe_remove. by intros ->. Qed.

(** C1, amended: for every sink name, on a server where no two loopback
    modules with that sink as target carry the same (source, sink) pair: if
    the consumer set of the sink's monitor is non-empty,
    [vsink_safe_remove] changes nothing and returns that set; if it is
    empty, every loopback route into the sink and every null-sink module
    with that name is unloaded, nothing else is, and the empty set is
    returned. *)
Theorem vsink_safe_remove_gate (name : string) (p : Pulse) :
  routes_unique name p ->
  let consumers := vsink_apps set_order name p in
  let r := vsink_safe_remove set_order name p in
  r.1 = consumers
  /\ (consumers ≠ [] -> r.2 = p)
  /\ (consumers = [] ->
        module_list r.2 =
          filter (fun m => ¬ is_route_into name m /\ ¬ is_sink_named name m) (module_list p)
        /\ (forall m, is_route_into name m \/ is_sink_named name m -> m ∉ module_list r.2)
        /\ sources r.2 = sources p /\ source_outputs r.2 = source_outputs p).
Proof.
  intros Hu. cbv zeta. split_and!.
  - unfold vsink_safe_remove. by destruct (vsink_apps set_order name p).
  - intros Hne. by rewrite vsink_safe_remove_busy.
  - intros He. rewrite vsink_safe_remove_unused by done. simpl.
    destruct (vsink_remove_streams name p) as [Hs Ho].
    rewrite vsink_remove_modules by done. split_and!; [done| |done|done].
    intros m Hm [Hn _]%list_elem_of_filter. tauto.
Qed.

(** C4, as stated, fails: the sink [X] is absent, neither its monitor nor a
    null-sink module with its name is listed, and [vsink_safe_remove] still
    unloads a module, the route that is listed with [X] as target. *)
Lemma vsink_safe_remove_stale_route :
  (forall src, src ∈ source_list stale_route -> src_name src ≠ monitor_of "X")
  /\ sink_count "X" stale_route = 0
  /\ module_list stale_route = [mkModule 0 "module-loopback" "source=mic sink=X"]
  /\ module_list (vsink_safe_remove list_order "X" stale_route).2 = []
  /\ (vsink_safe_remove list_order "X" stale_route).2 ≠ stale_route.
Proof.
  split_and!; [|reflexivity..|vm_compute; discriminate].
  intros src [->|Hin%elem_of_nil]%elem_of_cons; [|done]. vm_compute. discriminate.
Qed.

(** C4, amended: when no source is named [<name>.monitor], the index
    lookup gives [-1] and [vsink_apps] returns the empty dictionary;
    [vsink_safe_remove] then returns the empty dictionary and unloads
    nothing but what is still listed for the sink, loopback routes with it
    as target and null-sink modules with its name: on an already-absent
    sink that no listed route targets it is a no-op. *)
Theorem vsink_apps_unresolved_monitor (name : string) (p : Pulse) :
  (forall src, src ∈ source_list p -> src_name src ≠ monitor_of name) ->
  vsink_source name p = (-1)%Z
  /\ vsink_apps set_order name p = []
  /\ (vsink_safe_remove set_order name p).1 = []
  /\ (forall m, m ∈ module_list p -> ¬ is_route_into name m -> ¬ is_sink_named name m ->
        m ∈ module_list (vsink_safe_remove set_order name p).2)
  /\ ((forall m, m ∈ module_list p -> ¬ is_sink_named name m /\ ¬ is_route_into name m) ->
      vsink_safe_remove set_order name p = ([], p)).
Proof.
  intros Hmon.
  assert (vsink_source name p = (-1)%Z) as Hidx by by apply first_monitor_none.
  pose proof (vsink_apps_unresolved name p Hidx) as He.
  rewrite vsink_safe_remove_unused by done. split_and!; [done..| |].
  - intros m Hm Hr Hs. by apply vsink_remove_frame.
  - intros Habs. by rewrite vsink_remove_absent.
Qed.

(** C6, amended: a stream named [Peak detect] is never in the dictionary
    returned by [vsink_apps], as a key or as a value; every entry is a
    listed stream that reads from the sink's monitor, filed under its own
    name; and every other listed stream that reads from the monitor is
    included by name: its display name is a key of the dictionary, whose
    entry is a listed stream of that name on the monitor, and is the
    stream itself when no other stream on the monitor bears the same
    name. *)
Theorem vsink_apps_exclusion (name : string) (p : Pulse) :
  dict_get "Peak detect" (vsink_apps set_order name p) = None
  /\ (forall k c, (k, c) ∈ vsink_apps set_order name p ->
        k = so_name c /\ so_name c ≠ "Peak detect" /\ c ∈ source_output_list p
        /\ Z.of_nat (so_source c) = vsink_source name p)
  /\ (forall c, c ∈ source_output_list p ->
        Z.of_nat (so_source c) = vsink_source name p ->
        so_name c ≠ "Peak detect" ->
        exists c', dict_get (so_name c) (vsink_apps set_order name p) = Some c'
          /\ so_name c' = so_name c /\ so_source c' = so_source c
          /\ c' ∈ source_output_list p
          /\ ((forall d, d ∈ source_output_list p -> so_source d = so_source c ->
                 so_name d = so_name c -> d = c) -> c' = c)).
Proof.
  split_and!.
  - destruct (dict_get "Peak detect" (vsink_apps set_order name p)) as [c|] eqn:E; [|done].
    apply dict_get_Some_elem, vsink_apps_elem in E. by destruct E as (E & _ & _ & []).
  - intros k c Hin%vsink_apps_elem. tauto.
  - intros c Hin Hs Hn. destruct (vsink_apps_lookup name p c Hin Hs Hn) as [c' Hc'].
    exists c'. split; [done|].
    apply dict_get_Some_elem, vsink_apps_elem in Hc' as (Hk & Hin' & Hs' & _).
    assert (so_source c' = so_source c) as Hsrc by lia.
    split_and!; [done..|]. intros Huniq. by apply Huniq.
Qed.


End consumers.

(** ** The connect pass *)

Lemma loopback_args_inj (a b n : string) : loopback_args a n = loopback_args b n -> a = b.
Proof.
  unfold loopback_args. intros H%(inj (String.app "source=")).
  by apply string_app_inv_r in H.
Qed.

Lemma loopback_add_modules (source sink : string) (q : Pulse) :
  source_list (loopback_add source sink q).2 = source_list q
  /\ (module_list (loopback_add source sink q).2 = module_list q
      \/ exists i, module_list (loopback_add source sink q).2 =
           module_list q ++ [mkModule i "module-loopback" (loopback_args source sink)]).
Proof.
  unfold loopback_add. destruct (dict_get _ _); simpl; [by auto|].
  split; [done|]. right. eexists. apply module_list_load.
Qed.

Lemma capturer_connect_loop (name : string) (l : list Source) (q : Pulse) :
  let q' := foldl (fun q src =>
                     if decide (src_name src ≠ monitor_of name)
                     then (loopback_add (src_name src) name q).2 else q) q l in
  exists created,
    module_list q' = module_list q ++ created
    /\ Forall (fun m => is_loopback m /\ exists src, src ∈ l /\ src_name src ≠ monitor_of name
                 /\ mod_argument m = loopback_args (src_name src) name) created.
Proof.
  revert q. induction l as [|src l IH]; intros q; simpl.
  - exists []. by rewrite app_nil_r.
  - destruct (IH (if decide (src_name src ≠ monitor_of name)
                  then (loopback_add (src_name src) name q).2 else q)) as (created & Hm & Hc).
    assert (Forall (fun m => is_loopback m /\ exists src', src' ∈ src :: l
              /\ src_name src' ≠ monitor_of name
              /\ mod_argument m = loopback_args (src_name src') name) created) as Hc'.
    { eapply Forall_impl; [exact Hc|]. intros m (Hl & src' & Hin & Hne & Ha).
      split; [done|]. exists src'. split; [by right|done]. }
    destruct (decide (src_name src ≠ monitor_of name)) as [Hne|]; [|by exists created].
    destruct (loopback_add_modules (src_name src) name q) as [_ [Hq|[i Hq]]].
    + exists created. by rewrite Hm, Hq.
    + exists (mkModule i "module-loopback" (loopback_args (src_name src) name) :: created).
      rewrite Hm, Hq, <- app_assoc. split; [done|]. constructor; [|done].
      split; [done|]. exists src. split; [by left|done].
Qed.

(** Every module loaded by the connect pass is a loopback module loaded
    for a listed source other than the sink's own monitor, with that
    source's name as source and the sink as target; the arguments of a
    route from [<name>.monitor] are never written. *)
Lemma capturer_connect_created (name : string) (p : Pulse) :
  exists created,
    module_list (capturer_connect name p) = module_list p ++ created
    /\ Forall (fun m => is_loopback m /\ exists src, src ∈ source_list p
                 /\ src_name src ≠ monitor_of name
                 /\ mod_argument m = loopback_args (src_name src) name) created
    /\ Forall (fun m => mod_argument m ≠ loopback_args (monitor_of name) name) created.
Proof.
  destruct (capturer_connect_loop name (source_list p) p) as (created & Hm & Hc).
  exists created. split_and!; [done|done|].
  eapply Forall_impl; [exact Hc|]. intros m (_ & src & _ & Hne & Ha) He.
  rewrite Ha in He. by apply loopback_args_inj in He.
Qed.

(** ** The parsing contract *)


(** C8, as stated, fails: the pattern excludes the space character only,
    so a tab does not separate tokens; read as white-space separated
    tokens the string holds the key [b], the parser does not find it. *)
Lemma parse_args_tab_separated :
  dict_get "b" (whitespace_args tab_separated) = Some "2"
  /\ dict_get "b" (parse_args tab_separated) = None
  /\ parse_args tab_separated ≠ whitespace_args tab_separated.
Proof. vm_compute. split_and!; done. Qed.

(** C8, amended: for every module argument string, the parser reads the
    string as tokens separated by the space character: each token that
    holds an [=] gives the key before its first [=] and the value after
    it, a later token replacing the value of an earlier one with the same
    key, and every other token is passed over; looking up a key that no
    token gives yields [None]. *)
Theorem parse_args_space_tokens (arg : string) :
  parse_args arg = dict_of (space_items arg)
  /\ (forall k v, (k, v) ∈ space_items arg <->
        exists t, t ∈ split_space arg /\ t = k +:+ String "="%char v
                  /\ has_char "="%char k = false)
  /\ (forall key, key ∉ (space_items arg).*1 -> dict_get key (parse_args arg) = None)
  /\ (forall key v, dict_get key (parse_args arg) = Some v -> (key, v) ∈ space_items arg)
  /\ (forall key v items, space_items arg = items ++ [(key, v)] ->
        dict_get key (parse_args arg) = Some v).
Proof.
  unfold parse_args. rewrite re_findall_tokens. split_and!.
  - done.
  - intros k v. unfold space_items. rewrite list_elem_of_omap. split.
    + intros (t & Hin & [-> Hk]%split_eq_Some). eauto.
    + intros (t & Hin & -> & Hk). exists (k +:+ String "="%char v).
      split; [done|]. by apply split_eq_app.
  - intros key. apply dict_get_of_None.
  - intros key v. apply dict_get_of_Some.
  - intros key v items ->. by rewrite dict_get_of_snoc, decide_True.
Qed.

(** ** Reporting the delta *)

Section delta.
Variable set_order : forall A : Type, list A -> list A.
Hypothesis set_order_perm : forall (A : Type) (l : list A), set_order A l ≡ₚ l.

Lemma capturer_refresh_prints (name : string) (self : Capturer) :
  let r := capturer_refresh set_order name self in
  r.2 = capturer_deltaprint set_order r.1 (srcs self) (apps self) "  ".
Proof. done. Qed.

Lemma delta_lines_elem {A} `{Countable A} (f : A -> string) (X Y : gset A) (line : string) :
  line ∈ f <$> set_order A (elements (X ∖ Y)) <-> exists x, x ∈ X /\ (x ∉ Y) /\ line = f x.
Proof.
  rewrite list_elem_of_fmap. split.
  - intros (x & -> & Hx). rewrite set_order_perm, elem_of_elements, elem_of_difference in Hx.
    exists x. tauto.
  - intros (x & HX & HY & ->). exists x. split; [done|].
    rewrite set_order_perm, elem_of_elements, elem_of_difference. tauto.
Qed.

(** C7: for every previous snapshot [(old_srcs, old_apps)] and new snapshot
    [(srcs self, apps self)], the lines printed are, up to the order within
    each group, one [Connected source] line per element of
    [srcs self ∖ old_srcs], one [Disconnected source] line per element of
    [old_srcs ∖ srcs self], one [Connected app] line per element of
    [apps self ∖ old_apps] and one [Disconnected app] line per element of
    [old_apps ∖ apps self], and nothing else. *)
Theorem capturer_deltaprint_exact (self : Capturer) (old_srcs : gset (option string))
    (old_apps : gset string) (prefix : string) :
  let out := capturer_deltaprint set_order self old_srcs old_apps prefix in
  out ≡ₚ (line_connected_source prefix <$> elements (srcs self ∖ old_srcs))
         ++ (line_disconnected_source prefix <$> elements (old_srcs ∖ srcs self))
         ++ (line_connected_app prefix <$> elements (apps self ∖ old_apps))
         ++ (line_disconnected_app prefix <$> elements (old_apps ∖ apps self))
  /\ length out = size (srcs self ∖ old_srcs) + size (old_srcs ∖ srcs self)
                  + size (apps self ∖ old_apps) + size (old_apps ∖ apps self)
  /\ (forall line, line ∈ out <->
        (exists src, src ∈ srcs self /\ (src ∉ old_srcs)
                     /\ line = line_connected_source prefix src)
        \/ (exists src, src ∈ old_srcs /\ (src ∉ srcs self)
                        /\ line = line_disconnected_source prefix src)
        \/ (exists app, app ∈ apps self /\ (app ∉ old_apps)
                        /\ line = line_connected_app prefix app)
        \/ (exists app, app ∈ old_apps /\ (app ∉ apps self)
                        /\ line = line_disconnected_app prefix app)).
Proof.
  cbv zeta. unfold capturer_deltaprint.
  assert (forall (A : Type) (f : A -> string) (l : list A), f <$> set_order A l ≡ₚ f <$> l) as Hf.
  { intros A f l. by rewrite set_order_perm. }
  split_and!.
  - by rewrite !Hf.
  - rewrite !length_app, !length_fmap.
    rewrite !(Permutation_length (set_order_perm _ _)). unfold size, set_size. simpl. lia.
  - intros line. by rewrite !elem_of_app, !delta_lines_elem.
Qed.

End delta.

(** ** The theorems at concrete servers *)

Lemma list_order_perm (A : Type) (l : list A) : list_order A l ≡ₚ l.
Proof. done. Qed.

Lemma vsink_disconnect_frame_witness :
  routes_unique "X" routed_server
  /\ module_list (vsink_disconnect "X" routed_server) =
       [mkModule 0 "module-null-sink" "sink_name=X sink_properties=device.description=X";
        mkModule 2 "module-loopback" "source=mic sink=Y"].
Proof.
  assert (routes_unique "X" routed_server) as Hu by by_decide.
  split; [done|].
  destruct (vsink_disconnect_frame "X" routed_server Hu) as [Hm _].
  rewrite Hm. reflexivity.
Defined.

(** C1, as stated, fails: with no consumer, [vsink_safe_remove] leaves one
    of two loopback modules that carry the same pair, a route into the
    sink. *)
Lemma vsink_safe_remove_doubled_route :
  let r := vsink_safe_remove list_order "X" doubled_route in
  let m := mkModule 1 "module-loopback" "source=mic sink=X" in
  vsink_apps list_order "X" doubled_route = []
  /\ m ∈ module_list doubled_route /\ is_route_into "X" m /\ m ∈ module_list r.2.
Proof.
  cbv zeta. split_and!.
  - reflexivity.
  - by_decide.
  - split; reflexivity.
  - by_decide.
Qed.

Lemma vsink_safe_remove_gate_witness :
  routes_unique "X" busy_server
  /\ vsink_apps list_order "X" busy_server ≠ []
  /\ (vsink_safe_remove list_order "X" busy_server).2 = busy_server
  /\ routes_unique "X" routed_server
  /\ vsink_apps list_order "X" routed_server = []
  /\ module_list (vsink_safe_remove list_order "X" routed_server).2 =
       [mkModule 2 "module-loopback" "source=mic sink=Y"].
Proof.
  assert (routes_unique "X" busy_server) as Hu by by_decide.
  assert (vsink_apps list_order "X" busy_server ≠ []) as Hne by (vm_compute; discriminate).
  assert (routes_unique "X" routed_server) as Hu' by by_decide.
  assert (vsink_apps list_order "X" routed_server = []) as He by reflexivity.
  split_and!; [done|done| |done|done|].
  - destruct (vsink_safe_remove_gate list_order "X" busy_server Hu) as (_ & Hbusy & _).
    by apply Hbusy.
  - destruct (vsink_safe_remove_gate list_order "X" routed_server Hu') as (_ & _ & Hgo).
    destruct (Hgo He) as (Hm & _). rewrite Hm. reflexivity.
Defined.

Lemma vsink_apps_unresolved_monitor_witness :
  (forall src, src ∈ source_list gone_server -> src_name src ≠ monitor_of "X")
  /\ vsink_apps list_order "X" gone_server = []
  /\ vsink_safe_remove list_order "X" gone_server = ([], gone_server).
Proof.
  assert (forall src, src ∈ source_list gone_server -> src_name src ≠ monitor_of "X") as Hmon.
  { intros src [->|Hin%elem_of_nil]%elem_of_cons; [|done]. vm_compute. discriminate. }
  split; [done|].
  destruct (vsink_apps_unresolved_monitor list_order list_order_perm "X" gone_server Hmon)
    as (_ & He & _ & _ & Hnoop).
  split; [done|]. apply Hnoop.
  intros m Hin. vm_compute in Hin. by apply elem_of_nil in Hin.
Defined.

Lemma vsink_apps_exclusion_witness :
  dict_get "Peak detect" (vsink_apps list_order "X" busy_server) = None
  /\ exists c', dict_get "Recorder" (vsink_apps list_order "X" busy_server) = Some c'.
Proof.
  destruct (vsink_apps_exclusion list_order list_order_perm "X" busy_server) as (Hp & _ & Hin).
  split; [done|].
  destruct (Hin (mkSourceOutput 0 "Recorder" 1)) as (c' & Hc' & _).
  - by_decide.
  - reflexivity.
  - vm_compute. discriminate.
  - by exists c'.
Defined.


Lemma capturer_deltaprint_exact_witness :
  length (capturer_deltaprint list_order first_snapshot ∅ ∅ "  ")
  = size (srcs first_snapshot ∖ ∅) + size (∅ ∖ srcs first_snapshot)
    + size (apps first_snapshot ∖ ∅) + size (∅ ∖ apps first_snapshot).
Proof.
  destruct (capturer_deltaprint_exact list_order list_order_perm first_snapshot ∅ ∅ "  ")
    as (_ & Hlen & _).
  exact Hlen.
Defined.

(** ** The scenarios of the specification *)

(** On a fresh server [vsink_add] loads one null-sink module and the connect
    pass routes the microphone, and not the monitor, into the sink. *)
Example scenario_start :
  module_list (capturer_connect "X" (vsink_add "X" fresh_server).2) =
    [mkModule 0 "module-null-sink" "sink_name=X sink_properties=device.description=X";
     mkModule 1 "module-loopback" "source=mic sink=X"].
Proof. reflexivity. Qed.

(** With a recorder reading from the monitor nothing is removed. *)
Example scenario_busy :
  dict_keys (vsink_safe_remove list_order "X" busy_server).1 = ["Recorder"]
  /\ (vsink_safe_remove list_order "X" busy_server).2 = busy_server.
Proof. split; reflexivity. Qed.

(** With no consumer the sink and the routes into it go. *)
Example scenario_unused :
  (vsink_safe_remove list_order "X" routed_server).1 = []
  /\ module_list (vsink_safe_remove list_order "X" routed_server).2 =
       [mkModule 2 "module-loopback" "source=mic sink=Y"].
Proof. split; reflexivity. Qed.

(** The first report after start lists everything as connected. *)
Example scenario_first_report :
  capturer_deltaprint list_order first_snapshot ∅ ∅ "  " =
    ["  Connected source    mic"; "  Connected app       Recorder"].
Proof. vm_compute. reflexivity. Qed.

(** * Further properties *)

(** ** What the parser yields *)

Lemma has_char_app_l (a : ascii) (s t : string) :
  has_char a (s +:+ t) = false -> has_char a s = false /\ has_char a t = false.
Proof. rewrite has_char_app. apply orb_false_iff. Qed.

Lemma re_findall_clean (arg k v : string) :
  (k, v) ∈ re_findall arg ->
  spaceless k /\ has_char "="%char k = false /\ spaceless v.
Proof.
  rewrite re_findall_tokens. unfold space_items.
  intros (t & Hin & [-> Hk]%split_eq_Some)%list_elem_of_omap.
  pose proof (split_space_spaceless arg) as Hall.
  rewrite Forall_forall in Hall. apply Hall in Hin.
  apply has_char_app_l in Hin as [Hsk Hv]. simpl in Hv.
  by destruct (decide ("="%char = " "%char)).
Qed.

Lemma parse_args_value_spaceless (arg key v : string) :
  dict_get key (parse_args arg) = Some v -> spaceless v.
Proof. intros H%dict_get_of_Some%re_findall_clean. tauto. Qed.

(** X1: the dictionary parsed from any argument string has distinct keys,
    no key holds a space or an [=], and no value holds a space. *)
Theorem parse_args_clean (arg : string) :
  NoDup (dict_keys (parse_args arg))
  /\ Forall (fun kv => spaceless kv.1 /\ has_char "="%char kv.1 = false /\ spaceless kv.2)
            (parse_args arg).
Proof.
  split; [apply dict_of_keys_NoDup|].
  apply Forall_forall. intros [k v] Hin%dict_of_elem. by apply re_findall_clean in Hin.
Qed.

Lemma split_space_join (a b : string) :
  split_space (a +:+ String " "%char b) = split_space a ++ split_space b.
Proof.
  induction a as [|c a IH]; simpl; [done|].
  case_decide; [by rewrite IH|]. rewrite IH.
  pose proof (split_space_nonempty a). by destruct (split_space a).
Qed.

Lemma re_findall_join (a b : string) :
  re_findall (a +:+ String " "%char b) = re_findall a ++ re_findall b.
Proof. rewrite !re_findall_tokens. unfold space_items. by rewrite split_space_join, omap_app. Qed.

Lemma dict_get_of_app {K V : Type} `{EqDecision K} (l1 l2 : list (K * V)) (k : K) :
  dict_get k (dict_of (l1 ++ l2)) =
    match dict_get k (dict_of l2) with
    | Some v => Some v
    | None => dict_get k (dict_of l1)
    end.
Proof.
  induction l2 as [|[k' v'] l2 IH] using rev_ind.
  - by rewrite app_nil_r.
  - rewrite app_assoc, !dict_get_of_snoc, IH. by case_decide.
Qed.

(** X2: arguments joined by a space parse to the matches of the first
    followed by those of the second; in the dictionary a key of the second
    string takes its value from there, every other key keeps the value the
    first string gives it. *)
Theorem parse_args_join (a b : string) :
  re_findall (a +:+ " " +:+ b) = re_findall a ++ re_findall b
  /\ forall key,
       dict_get key (parse_args (a +:+ " " +:+ b)) =
         match dict_get key (parse_args b) with
         | Some v => Some v
         | None => dict_get key (parse_args a)
         end.
Proof.
  change (a +:+ " " +:+ b) with (a +:+ String " "%char b).
  split; [apply re_findall_join|].
  intros key. unfold parse_args. by rewrite re_findall_join, dict_get_of_app.
Qed.

(** X3: what [_vsink_add] writes is read back by [vsink_dict] as the sink
    name exactly when the name holds no space. *)
Theorem vsink_args_round_trip (name : string) :
  dict_get "sink_name" (parse_args (vsink_args name)) = Some name <-> spaceless name.
Proof.
  split; [apply parse_args_value_spaceless|apply vsink_args_name].
Qed.

(** X4: what [_loopback_add] writes is read back by [loopback_dict] as the
    pair of source and sink exactly when neither name holds a space. *)
Theorem loopback_args_round_trip (source sink : string) (i : nat) :
  route_pair (mkModule i "module-loopback" (loopback_args source sink))
    = (Some source, Some sink)
  <-> spaceless source /\ spaceless sink.
Proof.
  split.
  - unfold route_pair. simpl. intros [= Hs Ht].
    split; eapply parse_args_value_spaceless; eassumption.
  - intros [Hs Ht]. by apply loopback_args_pair.
Qed.

(** ** The indexes: which module a lookup gives *)

Lemma modules_from_app_lt (j : nat) (t : list (option (string * string))) (l1 l2 : list Module) :
  modules_from j t = l1 ++ l2 ->
  forall a b, a ∈ l1 -> b ∈ l2 -> mod_index a < mod_index b.
Proof.
  revert j l1. induction t as [|[[n x]|] t IH]; intros j l1 Heq a b Ha Hb; simpl in Heq.
  - destruct l1; [by apply elem_of_nil in Ha|done].
  - destruct l1 as [|c l1]; [by apply elem_of_nil in Ha|].
    injection Heq as <- Heq. apply elem_of_cons in Ha as [->|Ha].
    + assert (b ∈ modules_from (S j) t) as Hb' by (rewrite Heq; apply elem_of_app; by right).
      apply modules_from_ge in Hb'. simpl. lia.
    + by apply (IH (S j) l1).
  - by apply (IH (S j) l1).
Qed.

Lemma modules_from_bound (j : nat) (t : list (option (string * string))) (m : Module) :
  m ∈ modules_from j t -> mod_index m < j + length t.
Proof.
  revert j. induction t as [|[[n x]|] t IH]; intros j; simpl.
  - by intros ?%elem_of_nil.
  - intros [->|Hin%IH]%elem_of_cons; simpl; lia.
  - intros Hin%IH. lia.
Qed.

Lemma module_list_bound (p : Pulse) (m : Module) :
  m ∈ module_list p -> mod_index m < length (module_table p).
Proof. apply (modules_from_bound 0). Qed.

(** The entry a dictionary comprehension keeps for a key is the last
    element of the list that yields the key. *)
Lemma dict_of_filter_last {A K : Type} `{EqDecision K} (P : A -> Prop)
    `{!forall x, Decision (P x)} (g : A -> K) (l : list A) (k : K) (c : A) :
  dict_get k (dict_of ((fun x => (g x, x)) <$> filter P l)) = Some c ->
  P c /\ g c = k /\ exists l1 l2, l = l1 ++ c :: l2 /\ forall x, x ∈ l2 -> P x -> g x ≠ k.
Proof.
  induction l as [|a l IH] using rev_ind; [done|].
  rewrite filter_app, filter_cons, filter_nil. destruct (decide (P a)) as [Ha|Ha].
  - rewrite fmap_app, list_fmap_singleton, dict_get_of_snoc. case_decide as Hk.
    + intros [= <-]. split_and!; [done..|]. exists l, []. split; [done|].
      by intros x ?%elem_of_nil.
    + intros (Hc & Hg & l1 & l2 & -> & Hl2)%IH. split_and!; [done..|].
      exists l1, (l2 ++ [a]). split; [by rewrite <- app_assoc|].
      intros x [Hx| ->%list_elem_of_singleton]%elem_of_app; [by apply Hl2|done].
  - rewrite app_nil_r. intros (Hc & Hg & l1 & l2 & -> & Hl2)%IH. split_and!; [done..|].
    exists l1, (l2 ++ [a]). split; [by rewrite <- app_assoc|].
    intros x [Hx| ->%list_elem_of_singleton]%elem_of_app; [by apply Hl2|done].
Qed.

(** A lookup in an index of the modules of one kind gives the listed module
    of that kind with the greatest index among those that yield the key. *)
Lemma index_lookup {K : Type} `{EqDecision K} (kind : string)
    (keyf : list (string * string) -> K) (p : Pulse) (k : K) (curr : Module) :
  dict_get k (dict_of ((fun em => (keyf em.1, em.2)) <$> module_items kind p)) = Some curr ->
  curr ∈ module_list p /\ mod_name curr = kind
  /\ keyf (parse_args (mod_argument curr)) = k
  /\ forall m, m ∈ module_list p -> mod_name m = kind ->
       keyf (parse_args (mod_argument m)) = k -> mod_index m <= mod_index curr.
Proof.
  unfold module_items. rewrite <- list_fmap_compose.
  intros (Hc & Hg & l1 & l2 & Hl & Hl2)%(dict_of_filter_last _
    (fun m => keyf (parse_args (mod_argument m)))).
  split_and!; [|done|done|].
  - rewrite Hl. apply elem_of_app. right. by left.
  - intros m Hm Hkind Hkey. rewrite Hl in Hm.
    apply elem_of_app in Hm as [Hm|[->|Hm]%elem_of_cons].
    + assert (mod_index m < mod_index curr); [|lia].
      apply (modules_from_app_lt 0 (module_table p) l1 (curr :: l2)); [done|done|by left].
    + done.
    + by destruct (Hl2 m).
Qed.

Lemma index_lookup_None {K : Type} `{EqDecision K} (kind : string)
    (keyf : list (string * string) -> K) (p : Pulse) (k : K) :
  dict_get k (dict_of ((fun em => (keyf em.1, em.2)) <$> module_items kind p)) = None <->
  forall m, m ∈ module_list p -> mod_name m = kind -> keyf (parse_args (mod_argument m)) ≠ k.
Proof.
  unfold module_items. rewrite dict_get_of_None, <- !list_fmap_compose. split.
  - intros Hn m Hm Hkind Hkey. apply Hn, list_elem_of_fmap. exists m.
    split; [done|]. by apply list_elem_of_filter.
  - intros Hn (m & Hk & [Hkind Hm]%list_elem_of_filter)%list_elem_of_fmap.
    by apply (Hn m).
Qed.

(** X5: when a null-sink module with the name is listed, [vsink_add] loads
    nothing and returns the greatest index among the listed null-sink
    modules with that name, the sink loaded last. *)
Theorem vsink_add_returns_latest (name : string) (p : Pulse) :
  sink_count name p ≠ 0 ->
  exists curr, vsink_add name p = (mod_index curr, p)
    /\ curr ∈ module_list p /\ is_sink_named name curr
    /\ forall m, m ∈ module_list p -> is_sink_named name m -> mod_index m <= mod_index curr.
Proof.
  intros Hc. unfold vsink_add.
  destruct (dict_get (Some name) (vsink_dict p)) as [curr|] eqn:E;
    [|by apply vsink_dict_missing in E].
  exists curr. split; [done|].
  apply (index_lookup "module-null-sink" (dict_get "sink_name")) in E as (Hin & Hk & Hn & Hmax).
  split_and!; [done|done|]. intros m Hm [Hkind Hname]. by apply Hmax.
Qed.

(** X6: when a loopback module for the pair is listed, [loopback_add]
    loads nothing and returns the greatest index among the listed loopback
    modules for that pair. *)
Theorem loopback_add_returns_latest (source sink : string) (p : Pulse) :
  route_count source sink p ≠ 0 ->
  exists curr, loopback_add source sink p = (mod_index curr, p)
    /\ curr ∈ module_list p /\ is_route source sink curr
    /\ forall m, m ∈ module_list p -> is_route source sink m -> mod_index m <= mod_index curr.
Proof.
  intros Hc. unfold loopback_add.
  destruct (dict_get (Some source, Some sink) (loopback_dict p)) as [curr|] eqn:E;
    [|by apply loopback_dict_missing in E].
  exists curr. split; [done|].
  apply (index_lookup "module-loopback"
           (fun e => (dict_get "source" e, dict_get "sink" e))) in E as (Hin & Hk & Hn & Hmax).
  split_and!; [done|done|]. intros m Hm [Hkind Hpair]. by apply Hmax.
Qed.

(** X7: a lookup in [vsource_dict] misses exactly when no listed
    null-source module has [source_name] set to the name; a hit is such a
    module, the one with the greatest index. *)
Theorem vsource_dict_lookup (name : string) (p : Pulse) :
  (dict_get (Some name) (vsource_dict p) = None <->
     forall m, m ∈ module_list p -> mod_name m = "module-null-source" ->
       dict_get "source_name" (parse_args (mod_argument m)) ≠ Some name)
  /\ forall curr, dict_get (Some name) (vsource_dict p) = Some curr ->
       curr ∈ module_list p /\ mod_name curr = "module-null-source"
       /\ dict_get "source_name" (parse_args (mod_argument curr)) = Some name
       /\ forall m, m ∈ module_list p -> mod_name m = "module-null-source" ->
            dict_get "source_name" (parse_args (mod_argument m)) = Some name ->
            mod_index m <= mod_index curr.
Proof.
  split.
  - apply (index_lookup_None "module-null-source" (dict_get "source_name")).
  - intros curr. apply (index_lookup "module-null-source" (dict_get "source_name")).
Qed.

(** ** When creation happens *)

Lemma sink_count_spaced (name : string) (p : Pulse) :
  ¬ spaceless name -> sink_count name p = 0.
Proof.
  intros Hn. unfold sink_count. apply length_zero_iff_nil, elem_of_nil_inv.
  intros m [[_ Hk] _]%list_elem_of_filter. by apply parse_args_value_spaceless in Hk.
Qed.

Lemma route_count_spaced (source sink : string) (p : Pulse) :
  ¬ (spaceless source /\ spaceless sink) -> route_count source sink p = 0.
Proof.
  intros Hn. unfold route_count. apply length_zero_iff_nil, elem_of_nil_inv.
  intros m [[_ Hk] _]%list_elem_of_filter. apply Hn.
  unfold route_pair in Hk. injection Hk as Hs Ht.
  split; eapply parse_args_value_spaceless; eassumption.
Qed.

(** X8: [vsink_add] leaves every listed module, the sources and the
    streams as they are; it loads a module exactly when no null-sink module
    with the name is listed, and then one module only, a null-sink module
    with the arguments of [_vsink_add], whose index it returns. *)
Theorem vsink_add_effect (name : string) (p : Pulse) :
  let r := vsink_add name p in
  sources r.2 = sources p /\ source_outputs r.2 = source_outputs p
  /\ (sink_count name p ≠ 0 -> r.2 = p)
  /\ (sink_count name p = 0 ->
        r.1 = length (module_table p)
        /\ module_list r.2 =
             module_list p ++ [mkModule r.1 "module-null-sink" (vsink_args name)]
        /\ forall m, m ∈ module_list p -> mod_index m < r.1).
Proof.
  cbv zeta. unfold vsink_add.
  destruct (dict_get (Some name) (vsink_dict p)) as [curr|] eqn:E.
  - simpl. split_and!; [done..|]. intros Hz. apply vsink_dict_missing in Hz. congruence.
  - unfold _vsink_add. split_and!; [done|done| |].
    + intros Hc. by apply vsink_dict_missing in E.
    + intros _. split_and!; [done|apply module_list_load|].
      intros m. apply module_list_bound.
Qed.

(** X9: for a sink name that holds a space, no listed module is ever filed
    under the name, also not the one [vsink_add] has just loaded: every
    call loads a further null-sink module. *)
Theorem vsink_add_spaced_name (name : string) (p : Pulse) :
  ¬ spaceless name ->
  let r := vsink_add name p in
  r = module_load "module-null-sink" (vsink_args name) p
  /\ module_list r.2 = module_list p ++ [mkModule r.1 "module-null-sink" (vsink_args name)]
  /\ sink_count name r.2 = 0
  /\ dict_get (Some name) (vsink_dict r.2) = None.
Proof.
  intros Hn. cbv zeta.
  assert (vsink_add name p = module_load "module-null-sink" (vsink_args name) p) as ->.
  { unfold vsink_add, _vsink_add.
    by rewrite (proj2 (vsink_dict_missing name p) (sink_count_spaced name p Hn)). }
  split_and!; [done|apply module_list_load|by apply sink_count_spaced|].
  by apply vsink_dict_missing, sink_count_spaced.
Qed.

(** X10: [loopback_add] leaves every listed module, the sources and the
    streams as they are; it loads a module exactly when no loopback module
    for the pair is listed, and then one module only, a loopback module
    with the arguments of [_loopback_add], whose index it returns. *)
Theorem loopback_add_effect (source sink : string) (p : Pulse) :
  let r := loopback_add source sink p in
  sources r.2 = sources p /\ source_outputs r.2 = source_outputs p
  /\ (route_count source sink p ≠ 0 -> r.2 = p)
  /\ (route_count source sink p = 0 ->
        r.1 = length (module_table p)
        /\ module_list r.2 =
             module_list p ++ [mkModule r.1 "module-loopback" (loopback_args source sink)]
        /\ forall m, m ∈ module_list p -> mod_index m < r.1).
Proof.
  cbv zeta. unfold loopback_add.
  destruct (dict_get (Some source, Some sink) (loopback_dict p)) as [curr|] eqn:E.
  - simpl. split_and!; [done..|]. intros Hz. apply loopback_dict_missing in Hz. congruence.
  - unfold _loopback_add. split_and!; [done|done| |].
    + intros Hc. by apply loopback_dict_missing in E.
    + intros _. split_and!; [done|apply module_list_load|].
      intros m. apply module_list_bound.
Qed.

(** X11: for a pair in which the source or the sink name holds a space, no
    listed module is ever filed under the pair: every call of
    [loopback_add] loads a further loopback module. *)
Theorem loopback_add_spaced_name (source sink : string) (p : Pulse) :
  ¬ (spaceless source /\ spaceless sink) ->
  let r := loopback_add source sink p in
  r = module_load "module-loopback" (loopback_args source sink) p
  /\ module_list r.2 =
       module_list p ++ [mkModule r.1 "module-loopback" (loopback_args source sink)]
  /\ route_count source sink r.2 = 0
  /\ dict_get (Some source, Some sink) (loopback_dict r.2) = None.
Proof.
  intros Hn. cbv zeta.
  assert (loopback_add source sink p
          = module_load "module-loopback" (loopback_args source sink) p) as ->.
  { unfold loopback_add, _loopback_add.
    by rewrite (proj2 (loopback_dict_missing source sink p)
                  (route_count_spaced source sink p Hn)). }
  split_and!; [done|apply module_list_load|by apply route_count_spaced|].
  by apply loopback_dict_missing, route_count_spaced.
Qed.

(** ** Removal *)

Lemma module_list_NoDup' (p : Pulse) : NoDup (module_list p).
Proof. eapply NoDup_fmap_1, module_list_NoDup. Qed.

Lemma filter_index_ne (p : Pulse) (curr : Module) :
  curr ∈ module_list p ->
  filter (fun m => mod_index m ≠ mod_index curr) (module_list p)
  = filter (fun m => m ≠ curr) (module_list p).
Proof.
  intros Hc. apply filter_ext_elem. intros m Hm. split.
  - intros Hi ->. done.
  - intros Hne Hi. apply Hne. by apply (module_list_index_inj p).
Qed.

Lemma length_filter_remove {A} `{EqDecision A} (P : A -> Prop) `{!forall x, Decision (P x)}
    (l : list A) (c : A) :
  NoDup l -> c ∈ l -> P c ->
  length (filter P l) = S (length (filter P (filter (fun x => x ≠ c) l))).
Proof.
  induction l as [|a l IH]; intros Hnd Hc HP; [by apply elem_of_nil in Hc|].
  apply NoDup_cons in Hnd as [Ha Hnd]. apply elem_of_cons in Hc as [->|Hc].
  - rewrite filter_cons_True by done. rewrite (filter_cons_False (fun x => x ≠ a)) by tauto.
    rewrite (filter_all (fun x => x ≠ a) l); [done|]. by intros x Hx ->.
  - rewrite (filter_cons_True (fun x => x ≠ c)) by (by intros ->).
    rewrite !(filter_cons P). destruct (decide (P a)); simpl; rewrite IH; done.
Qed.

Lemma loopback_remove_picks (source sink : string) (p : Pulse) :
  filter (fun kv : (option string * option string) * Module => kv.1 = (Some source, Some sink))
         (loopback_dict p)
  = match dict_get (Some source, Some sink) (loopback_dict p) with
    | Some curr => [((Some source, Some sink), curr)]
    | None => []
    end.
Proof.
  destruct (dict_get (Some source, Some sink) (loopback_dict p)) as [curr|] eqn:E.
  - apply dict_entry_single; [|done]. rewrite loopback_dict_eq. apply dict_of_keys_NoDup.
  - apply elem_of_nil_inv. intros [k m] [Hk Hin]%list_elem_of_filter. simpl in Hk. subst k.
    apply dict_get_None in E. apply E. by apply (list_elem_of_fmap_2 fst _ (_, m)).
Qed.

(** X12: [loopback_remove] unloads one module at most, whatever is listed:
    the module whose handle [loopback_add] returns for the pair.  The
    number of loopback modules for the pair goes down by one, every other
    module, the sources and the streams stay; with no module for the pair
    listed nothing changes. *)
Theorem loopback_remove_effect (source sink : string) (p : Pulse) :
  let p' := loopback_remove source sink p in
  sources p' = sources p /\ source_outputs p' = source_outputs p
  /\ (route_count source sink p = 0 -> p' = p)
  /\ (route_count source sink p ≠ 0 ->
        module_list p' =
          filter (fun m => mod_index m ≠ (loopback_add source sink p).1) (module_list p)
        /\ S (route_count source sink p') = route_count source sink p).
Proof.
  cbv zeta. unfold loopback_remove.
  destruct (unload_loop
              (fun kv : (option string * option string) * Module =>
                 kv.1 = (Some source, Some sink))
              (fun kv => mod_index kv.2) (loopback_dict p) p) as (Hm & Hs & Ho).
  split_and!; [done|done| |].
  - intros Hz. apply loopback_dict_missing in Hz.
    apply (unload_loop_none
             (fun kv : (option string * option string) * Module =>
                kv.1 = (Some source, Some sink))).
    intros kv Hin Hk.
    assert (kv ∈ filter (fun kv : (option string * option string) * Module =>
                           kv.1 = (Some source, Some sink)) (loopback_dict p)) as Hf
      by by apply list_elem_of_filter.
    rewrite loopback_remove_picks, Hz in Hf. by apply elem_of_nil in Hf.
  - intros Hc. rewrite Hm, loopback_remove_picks. unfold loopback_add.
    destruct (dict_get (Some source, Some sink) (loopback_dict p)) as [curr|] eqn:E;
      [|by apply loopback_dict_missing in E].
    simpl. destruct (loopback_dict_found _ _ _ _ E) as [Hin Hr].
    assert (filter (fun m => mod_index m ∉ [mod_index curr]) (module_list p)
            = filter (fun m => mod_index m ≠ mod_index curr) (module_list p)) as ->.
    { apply list_filter_iff. intros m. by rewrite list_elem_of_singleton. }
    split; [done|]. unfold route_count. rewrite Hm, loopback_remove_picks, E. simpl.
    assert (filter (fun m => mod_index m ∉ [mod_index curr]) (module_list p)
            = filter (fun m => m ≠ curr) (module_list p)) as ->.
    { rewrite <- filter_index_ne by done. apply list_filter_iff. intros m.
      by rewrite list_elem_of_singleton. }
    symmetry. apply length_filter_remove; [apply module_list_NoDup'|done|done].
Qed.

(** X13: for names without a space and a pair that no listed module
    serves, removing the route right after adding it gives back the
    listing of before. *)
Theorem loopback_add_remove (source sink : string) (p : Pulse) :
  spaceless source -> spaceless sink -> route_count source sink p = 0 ->
  module_list (loopback_remove source sink (loopback_add source sink p).2) = module_list p
  /\ route_count source sink (loopback_add source sink p).2 = 1.
Proof.
  intros Hs Ht Hz. apply loopback_dict_missing in Hz as E.
  assert (loopback_add source sink p
          = module_load "module-loopback" (loopback_args source sink) p) as Hadd.
  { unfold loopback_add, _loopback_add. by rewrite E. }
  rewrite Hadd. clear Hadd.
  pose proof (loopback_dict_load (loopback_args source sink) p) as Hd. cbv zeta in Hd.
  rewrite loopback_args_pair in Hd by done.
  pose proof (module_list_load "module-loopback" (loopback_args source sink) p) as Hl.
  remember (module_load "module-loopback" (loopback_args source sink) p) as r eqn:Er.
  assert (r.1 = length (module_table p)) as Hidx by by subst r.
  assert (is_route source sink (mkModule r.1 "module-loopback" (loopback_args source sink)))
    as Hnew by (split; [done|by apply loopback_args_pair]).
  split.
  - unfold loopback_remove.
    destruct (unload_loop
                (fun kv : (option string * option string) * Module =>
                   kv.1 = (Some source, Some sink))
                (fun kv => mod_index kv.2) (loopback_dict r.2) r.2) as (-> & _ & _).
    rewrite loopback_remove_picks, Hd, dict_get_set, decide_True by done. simpl.
    rewrite Hl, filter_app, filter_cons_False, filter_nil, app_nil_r.
    + apply filter_all. intros m Hm%module_list_bound ?%list_elem_of_singleton. lia.
    + intros Hn. apply Hn. by left.
  - unfold route_count in *. rewrite Hl, filter_app, length_app, Hz.
    by rewrite filter_cons_True.
Qed.

Lemma vsink_remove_sinks (name : string) (p : Pulse) :
  module_list (vsink_remove name p) =
    filter (fun m => ¬ is_sink_named name m) (module_list (vsink_disconnect name p)).
Proof.
  unfold vsink_remove. cbv zeta.
  destruct (unload_loop
              (fun em : list (string * string) * Module => dict_get "sink_name" em.1 = Some name)
              (fun em => mod_index em.2)
              (module_items "module-null-sink" (vsink_disconnect name p))
              (vsink_disconnect name p)) as (-> & _ & _).
  rewrite remove_picks. apply (filter_by_key mod_index), module_list_NoDup.
Qed.

Lemma vsink_disconnect_subset (sink : string) (p : Pulse) (m : Module) :
  m ∈ module_list (vsink_disconnect sink p) -> m ∈ module_list p.
Proof.
  unfold vsink_disconnect.
  destruct (unload_loop (fun kv : (option string * option string) * Module => kv.1.2 = Some sink)
              (fun kv => mod_index kv.2) (loopback_dict p) p) as (-> & _ & _).
  by intros [_ ?]%list_elem_of_filter.
Qed.

(** X14: whatever is listed, also the same sink several times,
    [vsink_remove] leaves no null-sink module with the name; it loads
    nothing, and unloads nothing but null-sink modules with the name and
    loopback routes into it; sources and streams stay. *)
Theorem vsink_remove_effect (name : string) (p : Pulse) :
  let p' := vsink_remove name p in
  sink_count name p' = 0
  /\ (forall m, m ∈ module_list p' -> m ∈ module_list p)
  /\ (forall m, m ∈ module_list p -> ¬ is_route_into name m -> ¬ is_sink_named name m ->
        m ∈ module_list p')
  /\ sources p' = sources p /\ source_outputs p' = source_outputs p.
Proof.
  cbv zeta. destruct (vsink_remove_streams name p) as [Hs Ho]. split_and!; [| | |done|done].
  - unfold sink_count. rewrite vsink_remove_sinks.
    apply length_zero_iff_nil, elem_of_nil_inv.
    intros m [Hn [Hnn _]%list_elem_of_filter]%list_elem_of_filter. done.
  - intros m. rewrite vsink_remove_sinks.
    intros [_ Hm]%list_elem_of_filter. by apply vsink_disconnect_subset in Hm.
  - intros m. apply vsink_remove_frame.
Qed.

(** X15: on a server where no two loopback modules into the sink carry the
    same pair, disconnecting or removing a second time changes nothing. *)
Theorem vsink_remove_idempotent (name : string) (p : Pulse) :
  routes_unique name p ->
  vsink_disconnect name (vsink_disconnect name p) = vsink_disconnect name p
  /\ vsink_remove name (vsink_remove name p) = vsink_remove name p.
Proof.
  intros Hu. split.
  - unfold vsink_disconnect at 1.
    apply (unload_loop_none
             (fun kv : (option string * option string) * Module => kv.1.2 = Some name)).
    intros [k m] Hin Hk. rewrite loopback_dict_eq in Hin.
    apply dict_of_elem, list_elem_of_fmap in Hin as (m' & Heq & [Hl Hm]%list_elem_of_filter).
    assert (m = m') as <- by congruence. assert (k = route_pair m) as -> by congruence.
    rewrite vsink_disconnect_modules in Hm by done.
    apply list_elem_of_filter in Hm as [Hn _]. by apply Hn.
  - apply vsink_remove_absent. intros m. rewrite vsink_remove_modules by done.
    intros [Hn _]%list_elem_of_filter. tauto.
Qed.

(** X16: for a sink name without a space, on a server where no two
    loopback modules into the sink carry the same pair, adding the sink and
    then removing it lists what was listed before, less the routes into
    the sink and the null-sink modules with its name. *)
Theorem vsink_add_remove (name : string) (p : Pulse) :
  spaceless name -> routes_unique name p ->
  module_list (vsink_remove name (vsink_add name p).2) =
    filter (fun m => ¬ is_route_into name m /\ ¬ is_sink_named name m) (module_list p).
Proof.
  intros Hn Hu. unfold vsink_add.
  destruct (dict_get (Some name) (vsink_dict p)) as [curr|] eqn:E.
  - by apply vsink_remove_modules.
  - unfold _vsink_add.
    pose proof (module_list_load "module-null-sink" (vsink_args name) p) as Hl.
    remember (module_load "module-null-sink" (vsink_args name) p) as r eqn:Er.
    assert (is_sink_named name (mkModule r.1 "module-null-sink" (vsink_args name))) as Hnew.
    { split; [done|]. by apply vsink_args_name. }
    assert (routes_unique name r.2) as Hu'.
    { unfold routes_unique. rewrite Hl, filter_app, filter_cons_False, filter_nil, app_nil_r;
        [done|]. by intros [? _]. }
    rewrite (vsink_remove_modules name r.2 Hu'), Hl, filter_app.
    rewrite filter_cons_False by tauto. by rewrite filter_nil, app_nil_r.
Qed.

(** ** The sources of a sink *)

Lemma dict_get_filter_target {V : Type} (name : string) (k : option string)
    (d : list ((option string * option string) * V)) :
  dict_get k ((fun kv => (kv.1.1, kv.2)) <$> filter (fun kv => kv.1.2 = Some name) d)
  = dict_get (k, Some name) d.
Proof.
  induction d as [|[[k1 k2] v] d IH]; [done|].
  rewrite filter_cons. simpl. destruct (decide (k2 = Some name)) as [->|Hne].
  - csimpl. rewrite IH. destruct (decide (k1 = k)) as [->|Hk].
    + by rewrite decide_True.
    + rewrite decide_False; [done|]. congruence.
  - rewrite IH. rewrite decide_False; [done|]. congruence.
Qed.

Lemma dict_entry_unique {K V : Type} `{EqDecision K} (d : list (K * V)) (k : K) (v v' : V) :
  NoDup d.*1 -> (k, v) ∈ d -> (k, v') ∈ d -> v = v'.
Proof.
  intros Hnd Hv Hv'. apply (dict_get_elem _ _ _ Hnd) in Hv.
  apply (dict_get_elem _ _ _ Hnd) in Hv'. congruence.
Qed.

Lemma vsink_sources_eq (name : string) (p : Pulse) :
  vsink_sources name p =
    (fun kv => (kv.1.1, kv.2)) <$> filter (fun kv => kv.1.2 = Some name) (loopback_dict p).
Proof.
  unfold vsink_sources. apply dict_of_NoDup. rewrite <- list_fmap_compose.
  assert (NoDup (loopback_dict p).*1) as Hnd
    by (rewrite loopback_dict_eq; apply dict_of_keys_NoDup).
  apply NoDup_fmap_2_strong.
  - intros [[a b] m] [[a' b'] m'] [Hb Hin]%list_elem_of_filter [Hb' Hin']%list_elem_of_filter Ha.
    simpl in *. subst. f_equal. by apply (dict_entry_unique _ _ _ _ Hnd Hin Hin').
  - apply NoDup_filter. by eapply NoDup_fmap_1.
Qed.

Lemma vsink_sources_get (name : string) (p : Pulse) (k : option string) :
  dict_get k (vsink_sources name p) = dict_get (k, Some name) (loopback_dict p).
Proof. rewrite vsink_sources_eq. apply dict_get_filter_target. Qed.

(** X17: [vsink_sources] files under a source what [loopback_dict] files
    under the pair of that source and the sink; its keys are the sources of
    the listed loopback routes into the sink, each once. *)
Theorem vsink_sources_lookup (name : string) (p : Pulse) :
  (forall k, dict_get k (vsink_sources name p) = dict_get (k, Some name) (loopback_dict p))
  /\ NoDup (dict_keys (vsink_sources name p))
  /\ (forall k, k ∈ dict_keys (vsink_sources name p) <->
        exists m, m ∈ module_list p /\ is_route_into name m /\ (route_pair m).1 = k).
Proof.
  split_and!.
  - intros k. apply vsink_sources_get.
  - unfold vsink_sources. apply dict_of_keys_NoDup.
  - intros k. unfold dict_keys, vsink_sources. rewrite dict_of_keys_elem.
    rewrite <- list_fmap_compose, list_elem_of_fmap. split.
    + intros ([[a b] m] & -> & [Hb Hin]%list_elem_of_filter). simpl in *. subst b.
      rewrite loopback_dict_eq in Hin.
      apply dict_of_elem, list_elem_of_fmap in Hin as (m' & Heq & [Hl Hm]%list_elem_of_filter).
      assert (m = m') as <- by congruence.
      assert (route_pair m = (a, Some name)) as Hp by congruence.
      exists m. split; [done|]. split; [split; [done|by rewrite Hp]|].
      by apply (f_equal fst) in Hp.
    + intros (m & Hm & [Hl Ht] & Hk).
      assert (route_pair m ∈ (loopback_dict p).*1) as Hin.
      { rewrite loopback_dict_eq, dict_of_keys_elem, <- list_fmap_compose.
        apply list_elem_of_fmap. exists m. split; [done|]. by apply list_elem_of_filter. }
      apply list_elem_of_fmap in Hin as ([kk m'] & Hkk & Hin). simpl in Hkk. subst kk.
      exists (route_pair m, m'). split; [done|]. by apply list_elem_of_filter.
Qed.

(** X18: [vsink_source] returns [-1] exactly when no listed source is named
    [<name>.monitor], and otherwise the index of the first listed source
    with that name, which is not negative. *)
Theorem vsink_source_first (name : string) (p : Pulse) :
  (vsink_source name p = (-1)%Z <->
     forall src, src ∈ source_list p -> src_name src ≠ monitor_of name)
  /\ (vsink_source name p ≠ (-1)%Z ->
        exists l1 src l2, source_list p = l1 ++ src :: l2
          /\ src_name src = monitor_of name
          /\ (forall s, s ∈ l1 -> src_name s ≠ monitor_of name)
          /\ vsink_source name p = Z.of_nat (src_index src))
  /\ (-1 <= vsink_source name p)%Z.
Proof.
  unfold vsink_source. split_and!.
  - apply first_monitor_none.
  - induction (source_list p) as [|s l IH]; simpl; [done|].
    case_decide as Hs.
    + intros _. exists [], s, l. split_and!; [done|done| |done]. by intros ? ?%elem_of_nil.
    + intros (l1 & src & l2 & -> & Hn & Hl1 & Hi)%IH.
      exists (s :: l1), src, l2. split_and!; [done|done| |done].
      intros s' [->|Hin]%elem_of_cons; auto.
  - induction (source_list p) as [|s l IH]; simpl; [done|]. case_decide; lia.
Qed.

(** ** The connect pass, again *)

Lemma loopback_add_keeps (source sink : string) (p : Pulse)
    (k : option string * option string) :
  is_Some (dict_get k (loopback_dict p)) ->
  is_Some (dict_get k (loopback_dict (loopback_add source sink p).2)).
Proof.
  intros Hk. unfold loopback_add.
  destruct (dict_get (Some source, Some sink) (loopback_dict p)); [done|].
  unfold _loopback_add.
  pose proof (loopback_dict_load (loopback_args source sink) p) as Hd. cbv zeta in Hd.
  rewrite Hd, dict_get_set. by case_decide.
Qed.

Lemma loopback_add_routed (source sink : string) (p : Pulse) :
  spaceless source -> spaceless sink ->
  is_Some (dict_get (Some source, Some sink) (loopback_dict (loopback_add source sink p).2)).
Proof.
  intros Hs Ht. unfold loopback_add.
  destruct (dict_get (Some source, Some sink) (loopback_dict p)) eqn:E;
    [simpl; by rewrite E|].
  unfold _loopback_add.
  pose proof (loopback_dict_load (loopback_args source sink) p) as Hd. cbv zeta in Hd.
  rewrite loopback_args_pair in Hd by done.
  by rewrite Hd, dict_get_set, decide_True.
Qed.

Lemma loopback_add_found (source sink : string) (p : Pulse) :
  is_Some (dict_get (Some source, Some sink) (loopback_dict p)) ->
  (loopback_add source sink p).2 = p.
Proof. intros [curr E]. unfold loopback_add. by rewrite E. Qed.

Lemma capturer_connect_sources (name : string) (p : Pulse) :
  sources (capturer_connect name p) = sources p
  /\ source_outputs (capturer_connect name p) = source_outputs p.
Proof.
  unfold capturer_connect. generalize (source_list p) as l. intros l. revert p.
  induction l as [|src l IH]; intros p; simpl; [done|].
  destruct (IH (if decide (src_name src ≠ monitor_of name)
                then (loopback_add (src_name src) name p).2 else p)) as [-> ->].
  case_decide; [|done]. unfold loopback_add. by destruct (dict_get _ _).
Qed.

Lemma capturer_connect_loop_routed (name : string) (l : list Source) (q : Pulse) :
  spaceless name -> (forall src, src ∈ l -> spaceless (src_name src)) ->
  forall src, src ∈ l -> src_name src ≠ monitor_of name ->
    is_Some (dict_get (Some (src_name src), Some name)
               (loopback_dict (foldl (fun q src =>
                  if decide (src_name src ≠ monitor_of name)
                  then (loopback_add (src_name src) name q).2 else q) q l))).
Proof.
  intros Hn. induction l as [|a l IH] using rev_ind; intros Hl src Hin Hne.
  - by apply elem_of_nil in Hin.
  - rewrite foldl_snoc. apply elem_of_app in Hin as [Hin| ->%list_elem_of_singleton].
    + assert (is_Some (dict_get (Some (src_name src), Some name)
                (loopback_dict (foldl (fun q src =>
                   if decide (src_name src ≠ monitor_of name)
                   then (loopback_add (src_name src) name q).2 else q) q l)))) as Hs.
      { apply IH; [|done|done]. intros s Hs. apply Hl, elem_of_app. by left. }
      case_decide; [by apply loopback_add_keeps|done].
    + rewrite decide_True by done. apply loopback_add_routed; [|done].
      apply Hl, elem_of_app. right. by left.
Qed.

Lemma capturer_connect_loop_fixed (name : string) (l : list Source) (q : Pulse) :
  (forall src, src ∈ l -> src_name src ≠ monitor_of name ->
     is_Some (dict_get (Some (src_name src), Some name) (loopback_dict q))) ->
  foldl (fun q src =>
           if decide (src_name src ≠ monitor_of name)
           then (loopback_add (src_name src) name q).2 else q) q l = q.
Proof.
  induction l as [|a l IH]; intros Hl; simpl; [done|].
  assert ((if decide (src_name a ≠ monitor_of name)
           then (loopback_add (src_name a) name q).2 else q) = q) as ->.
  { case_decide; [|done]. apply loopback_add_found, Hl; [by left|done]. }
  apply IH. intros src Hin. apply Hl. by right.
Qed.

(** X19: for names without a space, after the connect pass every listed
    source other than the sink's monitor has a loopback route into the
    sink. *)
Theorem capturer_connect_complete (name : string) (p : Pulse) :
  spaceless name -> (forall src, src ∈ source_list p -> spaceless (src_name src)) ->
  forall src, src ∈ source_list p -> src_name src ≠ monitor_of name ->
    exists m, m ∈ module_list (capturer_connect name p) /\ is_route (src_name src) name m.
Proof.
  intros Hn Hl src Hin Hne.
  destruct (capturer_connect_loop_routed name (source_list p) p Hn Hl src Hin Hne) as [m Hm].
  exists m. by apply loopback_dict_found.
Qed.

(** X20: for names without a space, a second connect pass right after the
    first changes nothing. *)
Theorem capturer_connect_idempotent (name : string) (p : Pulse) :
  spaceless name -> (forall src, src ∈ source_list p -> spaceless (src_name src)) ->
  capturer_connect name (capturer_connect name p) = capturer_connect name p.
Proof.
  intros Hn Hl. unfold capturer_connect at 1. unfold source_list at 1.
  rewrite (proj1 (capturer_connect_sources name p)).
  apply capturer_connect_loop_fixed. intros src Hin Hne.
  by apply capturer_connect_loop_routed.
Qed.

Lemma loopback_add_unique (source sink t : string) (p : Pulse) :
  spaceless source -> spaceless sink ->
  routes_unique t p -> routes_unique t (loopback_add source sink p).2.
Proof.
  intros Hs Ht Hu. unfold loopback_add.
  destruct (dict_get (Some source, Some sink) (loopback_dict p)) eqn:E; [done|].
  unfold _loopback_add. unfold routes_unique. rewrite module_list_load, filter_app, fmap_app.
  rewrite filter_cons, filter_nil. case_decide as Hr; [|by rewrite app_nil_r].
  rewrite list_fmap_singleton, loopback_args_pair by done.
  apply NoDup_app. split_and!; [done| |apply NoDup_singleton].
  intros k (m & -> & [[Hl Hm] Hin]%list_elem_of_filter)%list_elem_of_fmap
    Hk%list_elem_of_singleton.
  rewrite loopback_dict_eq in E. apply dict_get_of_None in E. apply E.
  rewrite <- list_fmap_compose. apply list_elem_of_fmap. exists m.
  split; [done|]. by apply list_elem_of_filter.
Qed.

(** X21: for names without a space, the connect pass keeps the loopback
    pairs distinct: if no two loopback modules into some sink carried the
    same pair before, none do afterwards. *)
Theorem capturer_connect_unique (name t : string) (p : Pulse) :
  spaceless name -> (forall src, src ∈ source_list p -> spaceless (src_name src)) ->
  routes_unique t p -> routes_unique t (capturer_connect name p).
Proof.
  intros Hn. unfold capturer_connect. generalize (source_list p) as l. intros l. revert p.
  induction l as [|src l IH]; intros p Hl Hu; simpl; [done|].
  apply IH; [intros s Hs; apply Hl; by right|].
  case_decide; [|done]. apply loopback_add_unique; [|done|done]. apply Hl. by left.
Qed.

(** ** Reports *)

Section reports.
Variable set_order : forall A : Type, list A -> list A.
Hypothesis set_order_perm : forall (A : Type) (l : list A), set_order A l ≡ₚ l.

Lemma set_order_nil (A : Type) : set_order A [] = [].
Proof. by apply Permutation_nil_r. Qed.

Lemma set_order_nil_inv (A : Type) (l : list A) : set_order A l = [] -> l = [].
Proof. intros H. apply Permutation_nil_r. by rewrite <- (set_order_perm A l), H. Qed.

Lemma delta_group_nil {A} `{Countable A} (f : A -> string) (X Y : gset A) :
  f <$> set_order A (elements (X ∖ Y)) = [] <-> X ⊆ Y.
Proof.
  split.
  - intros Hf%fmap_nil_inv%set_order_nil_inv%elements_empty_inv. set_solver.
  - intros HXY. assert (X ∖ Y = ∅) as ->.
    { apply set_eq. intros x. rewrite elem_of_difference, elem_of_empty.
      split; [intros [Hx Hn]; by apply Hn, HXY|done]. }
    by rewrite elements_empty, set_order_nil.
Qed.

Lemma capturer_deltaprint_same (self : Capturer) (prefix : string) :
  capturer_deltaprint set_order self (srcs self) (apps self) prefix = [].
Proof.
  unfold capturer_deltaprint.
  by rewrite !(proj2 (delta_group_nil _ _ _)).
Qed.

(** X22: [capturer_deltaprint] prints nothing exactly when the new
    snapshot equals the old one. *)
Theorem capturer_deltaprint_silent (self : Capturer) (old_srcs : gset (option string))
    (old_apps : gset string) (prefix : string) :
  capturer_deltaprint set_order self old_srcs old_apps prefix = []
  <-> srcs self = old_srcs /\ apps self = old_apps.
Proof.
  unfold capturer_deltaprint. split.
  - intros (H1 & (H2 & (H3 & H4)%app_eq_nil)%app_eq_nil)%app_eq_nil.
    apply delta_group_nil in H1, H2, H3, H4. split; set_solver.
  - intros [<- <-]. by rewrite !(proj2 (delta_group_nil _ _ _)).
Qed.

(** X23: for names without a space, a refresh right after a refresh, with
    no change on the server in between, prints nothing and leaves the
    capturer and the server as they are. *)
Theorem capturer_refresh_again (name : string) (self : Capturer) :
  spaceless name ->
  (forall src, src ∈ source_list (pulse self) -> spaceless (src_name src)) ->
  let r1 := capturer_refresh set_order name self in
  let r2 := capturer_refresh set_order name r1.1 in
  r2.1 = r1.1 /\ r2.2 = [].
Proof.
  intros Hn Hl. cbv zeta. unfold capturer_refresh at 1 3. cbv zeta. simpl.
  assert (capturer_connect name (capturer_connect name (pulse self))
          = capturer_connect name (pulse self)) as ->.
  { unfold capturer_connect at 1. unfold source_list at 1.
    rewrite (proj1 (capturer_connect_sources name (pulse self))).
    apply capturer_connect_loop_fixed. intros src Hin Hne.
    by apply capturer_connect_loop_routed. }
  split; [done|]. apply capturer_deltaprint_same.
Qed.

End reports.

(** ** The further properties at concrete servers *)

Lemma fresh_server_spaceless :
  forall src, src ∈ source_list fresh_server -> spaceless (src_name src).
Proof. apply Forall_forall. by_decide. Qed.

Lemma vsink_add_returns_latest_witness :
  sink_count "X" doubled_sink ≠ 0
  /\ exists curr, vsink_add "X" doubled_sink = (mod_index curr, doubled_sink)
       /\ mod_index curr = 2.
Proof.
  assert (sink_count "X" doubled_sink ≠ 0) as Hc by (vm_compute; discriminate).
  split; [done|].
  destruct (vsink_add_returns_latest "X" doubled_sink Hc) as (curr & Hadd & _).
  exists curr. split; [done|]. by injection Hadd as <-.
Defined.

Lemma loopback_add_returns_latest_witness :
  route_count "mic" "X" doubled_route ≠ 0
  /\ exists curr, loopback_add "mic" "X" doubled_route = (mod_index curr, doubled_route)
       /\ mod_index curr = 2.
Proof.
  assert (route_count "mic" "X" doubled_route ≠ 0) as Hc by (vm_compute; discriminate).
  split; [done|].
  destruct (loopback_add_returns_latest "mic" "X" doubled_route Hc) as (curr & Hadd & _).
  exists curr. split; [done|]. by injection Hadd as <-.
Defined.

Lemma vsink_add_spaced_name_witness :
  ¬ spaceless "my sink"
  /\ sink_count "my sink" (vsink_add "my sink" fresh_server).2 = 0.
Proof.
  assert (¬ spaceless "my sink") as Hn by (vm_compute; discriminate).
  split; [done|].
  by destruct (vsink_add_spaced_name "my sink" fresh_server Hn) as (_ & _ & Hz & _).
Defined.

Lemma loopback_add_spaced_name_witness :
  ¬ (spaceless "my mic" /\ spaceless "X")
  /\ route_count "my mic" "X" (loopback_add "my mic" "X" fresh_server).2 = 0.
Proof.
  assert (¬ (spaceless "my mic" /\ spaceless "X")) as Hn.
  { intros [H _]. vm_compute in H. discriminate. }
  split; [done|].
  by destruct (loopback_add_spaced_name "my mic" "X" fresh_server Hn) as (_ & _ & Hz & _).
Defined.

Lemma loopback_add_remove_witness :
  route_count "mic" "X" fresh_server = 0
  /\ module_list (loopback_remove "mic" "X" (loopback_add "mic" "X" fresh_server).2)
     = module_list fresh_server.
Proof.
  split; [reflexivity|].
  apply (loopback_add_remove "mic" "X" fresh_server); reflexivity.
Defined.

Lemma vsink_remove_idempotent_witness :
  routes_unique "X" routed_server
  /\ vsink_remove "X" (vsink_remove "X" routed_server) = vsink_remove "X" routed_server.
Proof.
  assert (routes_unique "X" routed_server) as Hu by by_decide.
  split; [done|]. by destruct (vsink_remove_idempotent "X" routed_server Hu).
Defined.

Lemma vsink_add_remove_witness :
  routes_unique "X" routed_server
  /\ module_list (vsink_remove "X" (vsink_add "X" routed_server).2)
     = [mkModule 2 "module-loopback" "source=mic sink=Y"].
Proof.
  assert (routes_unique "X" routed_server) as Hu by by_decide.
  split; [done|].
  rewrite (vsink_add_remove "X" routed_server eq_refl Hu). reflexivity.
Defined.

Lemma capturer_connect_complete_witness :
  exists m, m ∈ module_list (capturer_connect "X" fresh_server) /\ is_route "mic" "X" m.
Proof.
  apply (capturer_connect_complete "X" fresh_server eq_refl fresh_server_spaceless
           (mkSource 0 "mic")).
  - by_decide.
  - vm_compute. discriminate.
Defined.

Lemma capturer_connect_idempotent_witness :
  capturer_connect "X" (capturer_connect "X" fresh_server) = capturer_connect "X" fresh_server.
Proof.
  exact (capturer_connect_idempotent "X" fresh_server eq_refl fresh_server_spaceless).
Defined.

Lemma capturer_connect_unique_witness :
  routes_unique "X" fresh_server /\ routes_unique "X" (capturer_connect "X" fresh_server).
Proof.
  assert (routes_unique "X" fresh_server) as Hu by by_decide.
  split; [done|].
  exact (capturer_connect_unique "X" "X" fresh_server eq_refl fresh_server_spaceless Hu).
Defined.

Lemma capturer_deltaprint_silent_witness :
  capturer_deltaprint list_order first_snapshot (srcs first_snapshot) (apps first_snapshot) "  "
  = [].
Proof.
  by apply (capturer_deltaprint_silent list_order list_order_perm).
Defined.

Lemma capturer_refresh_again_witness :
  let r1 := capturer_refresh list_order "X" (mkCapturer fresh_server ∅ ∅) in
  (capturer_refresh list_order "X" r1.1).2 = [].
Proof.
  cbv zeta.
  by destruct (capturer_refresh_again list_order list_order_perm "X"
                 (mkCapturer fresh_server ∅ ∅) eq_refl fresh_server_spaceless).
Defined.

(** ** Starting and stopping *)

Lemma vsink_add_present (name : string) (p : Pulse) :
  spaceless name ->
  exists m, m ∈ module_list (vsink_add name p).2 /\ is_sink_named name m.
Proof.
  intros Hn. unfold vsink_add.
  destruct (dict_get (Some name) (vsink_dict p)) as [curr|] eqn:E.
  - exists curr. by apply vsink_dict_found.
  - unfold _vsink_add. exists (mkModule (length (module_table p)) "module-null-sink" (vsink_args name)).
    split; [|split; [done|by apply vsink_args_name]].
    rewrite module_list_load. apply elem_of_app. right. by left.
Qed.

Lemma vsink_add_sources (name : string) (p : Pulse) :
  sources (vsink_add name p).2 = sources p.
Proof. unfold vsink_add. by destruct (dict_get _ _). Qed.

Lemma concat_lines_head (k : string) (ks : list string) :
  exists rest, String.concat newline ((fun app => "  " +:+ app) <$> (k :: ks))
               = String " "%char rest.
Proof. destruct ks; csimpl; eauto. Qed.

Section life.
Variable set_order : forall A : Type, list A -> list A.
Hypothesis set_order_perm : forall (A : Type) (l : list A), set_order A l ≡ₚ l.

(** X24: [Capturer.__init__] prints the banner and the heading and then,
    up to order, one [Connected source] line per source of the first
    snapshot and one [Connected app] line per consumer, and no
    [Disconnected] line.  For names without a space the server then lists
    a null-sink module with the name, and the snapshot holds every listed
    source other than the sink's monitor. *)
Theorem capturer_start_report (name : string) (p : Pulse) :
  let r := capturer_start set_order name p in
  (exists report,
      r.2 = ["You may now use [" +:+ name +:+ "] as audio source. Quit with ctrl-C.";
             newline +:+ "Connections:"] ++ report
      /\ report ≡ₚ (line_connected_source "  " <$> elements (srcs r.1))
                   ++ (line_connected_app "  " <$> elements (apps r.1)))
  /\ (spaceless name ->
      (forall src, src ∈ source_list p -> spaceless (src_name src)) ->
      (exists m, m ∈ module_list (pulse r.1) /\ is_sink_named name m)
      /\ forall src, src ∈ source_list p -> src_name src ≠ monitor_of name ->
           Some (src_name src) ∈ srcs r.1).
Proof.
  cbv zeta. unfold capturer_start, capturer_refresh. cbv zeta.
  cbn [fst snd srcs apps pulse]. split.
  - eexists. split; [reflexivity|]. unfold capturer_deltaprint. cbn [srcs apps].
    assert (forall (A : Type) `{Countable A} (X : gset A), X ∖ ∅ = X) as Hd.
    { intros A ? ? X. apply set_eq. intros x. rewrite elem_of_difference, elem_of_empty. tauto. }
    assert (forall (A : Type) `{Countable A} (X : gset A), ∅ ∖ X = ∅) as He.
    { intros A ? ? X. apply set_eq. intros x. rewrite elem_of_difference, elem_of_empty. tauto. }
    rewrite !Hd, !He, !elements_empty, !(set_order_nil set_order set_order_perm).
    rewrite !fmap_nil, app_nil_r, app_nil_l.
    assert (forall (A : Type) (f : A -> string) (l : list A),
              f <$> set_order A l ≡ₚ f <$> l) as Hf.
    { intros A f l. by rewrite set_order_perm. }
    by rewrite !Hf.
  - intros Hn Hl.
    set (p1 := (vsink_add name p).2).
    assert (sources p1 = sources p) as Hs1 by apply vsink_add_sources.
    assert (forall src, src ∈ source_list (capturer_connect name p1) -> spaceless (src_name src))
      as Hl2.
    { intros src. unfold source_list. rewrite (proj1 (capturer_connect_sources name p1)), Hs1.
      apply Hl. }
    split.
    + destruct (vsink_add_present name p Hn) as (m & Hm & Hs). exists m. split; [|done].
      destruct (capturer_connect_loop name (source_list p1) p1) as (c1 & Hc1 & _).
      destruct (capturer_connect_loop name (source_list (capturer_connect name p1))
                  (capturer_connect name p1)) as (c2 & Hc2 & _).
      unfold capturer_connect at 1. rewrite Hc2. fold (capturer_connect name p1).
      unfold capturer_connect. rewrite Hc1. rewrite !elem_of_app. by left; left.
    + intros src Hin Hne. apply elem_of_list_to_set.
      assert (is_Some (dict_get (Some (src_name src))
                (vsink_sources name (capturer_connect name (capturer_connect name p1))))) as Hk.
      { rewrite vsink_sources_get. apply capturer_connect_loop_routed; [done|done| |done].
        unfold source_list. by rewrite (proj1 (capturer_connect_sources name p1)), Hs1. }
      destruct (decide (Some (src_name src)
                  ∈ dict_keys (vsink_sources name
                      (capturer_connect name (capturer_connect name p1))))) as [|Hnk]; [done|].
      apply dict_get_None in Hnk. rewrite Hnk in Hk. by destruct Hk.
Qed.


(** X25: the handler of the interrupt prints exactly one of
    [Connection killed] and [Connection left alive].  After
    [Connection killed] no consumer was reading and the server lists no
    null-sink module with the name; after [Connection left alive] a
    consumer was reading and the server is as it was.  The snapshot is not
    touched. *)
Theorem capturer_interrupt_report (name : string) (self : Capturer) :
  let r := capturer_interrupt set_order name self in
  let killed := "Connection killed" in
  let alive := newline +:+ "Connection left alive" in
  (killed ∈ r.2 <-> alive ∉ r.2)
  /\ (killed ∈ r.2 ->
        vsink_apps set_order name (pulse self) = []
        /\ pulse r.1 = vsink_remove name (pulse self)
        /\ sink_count name (pulse r.1) = 0)
  /\ (alive ∈ r.2 ->
        vsink_apps set_order name (pulse self) ≠ [] /\ pulse r.1 = pulse self)
  /\ srcs r.1 = srcs self /\ apps r.1 = apps self.
Proof.
  cbv zeta. unfold capturer_interrupt, vsink_safe_remove. cbv zeta.
  destruct (vsink_apps set_order name (pulse self)) as [|[k c] d] eqn:E; cbn [fst snd pulse srcs apps].
  - assert ("Connection killed" ∈
              ["...ending..."; "Connection killed"; newline +:+ "Finished"]) as Hin
      by (right; left).
    assert (newline +:+ "Connection left alive" ∉
              ["...ending..."; "Connection killed"; newline +:+ "Finished"]) as Hout.
    { rewrite !not_elem_of_cons. split_and!; [done..|apply not_elem_of_nil]. }
    split_and!; [done| |done|done|done].
    intros _. split_and!; [done..|].
    unfold sink_count. rewrite vsink_remove_sinks.
    apply length_zero_iff_nil, elem_of_nil_inv.
    intros m [Hn [Hnn _]%list_elem_of_filter]%list_elem_of_filter. done.
  - destruct (concat_lines_head k (dict_keys d)) as [rest Hrest].
    change (dict_keys ((k, c) :: d)) with (k :: dict_keys d). rewrite Hrest.
    assert ("Connection killed" ∉
              ["...ending..."; "Some apps are still using this connection:" +:+ newline;
               String " "%char rest; newline +:+ "Connection left alive"]) as Hout.
    { rewrite !not_elem_of_cons. split_and!; [done..|apply not_elem_of_nil]. }
    assert (newline +:+ "Connection left alive" ∈
              ["...ending..."; "Some apps are still using this connection:" +:+ newline;
               String " "%char rest; newline +:+ "Connection left alive"]) as Hin
      by (right; right; right; left).
    split_and!; [tauto|done|done|done|done].
Qed.

End life.

(** ** Disconnecting on any server *)

Lemma loopback_dict_latest (p : Pulse) (m : Module) :
  m ∈ module_list p -> is_loopback m ->
  dict_get (route_pair m) (loopback_dict p) = Some m <->
  forall m', m' ∈ module_list p -> is_loopback m' -> route_pair m' = route_pair m ->
    mod_index m' <= mod_index m.
Proof.
  intros Hm Hl. split.
  - intros E m' Hm' Hl' Hp.
    apply (index_lookup "module-loopback"
             (fun e => (dict_get "source" e, dict_get "sink" e))) in E as (_ & _ & _ & Hmax).
    by apply Hmax.
  - intros Hmax.
    destruct (dict_get (route_pair m) (loopback_dict p)) as [curr|] eqn:E.
    + apply (index_lookup "module-loopback"
               (fun e => (dict_get "source" e, dict_get "sink" e))) in E
        as (Hc & Hk & Hp & Hmax').
      f_equal. apply (module_list_index_inj p); [done|done|].
      pose proof (Hmax curr Hc Hk Hp). pose proof (Hmax' m Hm Hl eq_refl). lia.
    + pose proof (proj1 (index_lookup_None "module-loopback"
               (fun e => (dict_get "source" e, dict_get "sink" e)) p (route_pair m)) E) as En.
      by destruct (En m Hm Hl).
Qed.

(** X26: on any server [vsink_disconnect] unloads, of the loopback routes
    into the sink, exactly the one with the greatest index for each
    (source, sink) pair; every other listed module stays and nothing is
    loaded. *)
Theorem vsink_disconnect_effect (sink : string) (p : Pulse) (m : Module) :
  m ∈ module_list (vsink_disconnect sink p) <->
  m ∈ module_list p
  /\ ¬ (is_route_into sink m
        /\ forall m', m' ∈ module_list p -> is_loopback m' -> route_pair m' = route_pair m ->
             mod_index m' <= mod_index m).
Proof.
  unfold vsink_disconnect.
  destruct (unload_loop (fun kv : (option string * option string) * Module => kv.1.2 = Some sink)
              (fun kv => mod_index kv.2) (loopback_dict p) p) as (-> & _ & _).
  rewrite list_elem_of_filter. split.
  - intros [Hn Hm]. split; [done|]. intros [[Hl Ht] Hmax]. apply Hn.
    apply (loopback_dict_latest p m Hm Hl) in Hmax.
    apply list_elem_of_fmap. exists (route_pair m, m). split; [done|].
    apply list_elem_of_filter. split; [done|]. by apply dict_get_Some_elem.
  - intros [Hm Hn]. split; [|done].
    intros ([k m'] & Hi & [Hk Hin]%list_elem_of_filter)%list_elem_of_fmap. simpl in Hi, Hk.
    pose proof Hin as Hin'. rewrite loopback_dict_eq in Hin'.
    apply dict_of_elem, list_elem_of_fmap in Hin' as (m'' & Heq & [Hl Hm'']%list_elem_of_filter).
    assert (m' = m'') as <- by congruence. assert (k = route_pair m') as -> by congruence.
    assert (m = m') as <- by by apply (module_list_index_inj p).
    apply Hn. split; [by split|].
    apply (loopback_dict_latest p m Hm Hl). apply dict_get_elem; [|done].
    rewrite loopback_dict_eq. apply dict_of_keys_NoDup.
Qed.

Lemma capturer_start_report_witness :
  let r := capturer_start list_order "X" fresh_server in
  (exists m, m ∈ module_list (pulse r.1) /\ is_sink_named "X" m)
  /\ Some "mic" ∈ srcs r.1.
Proof.
  cbv zeta.
  destruct (capturer_start_report list_order list_order_perm "X" fresh_server) as [_ Hs].
  destruct (Hs eq_refl fresh_server_spaceless) as [Hsink Hsrc].
  split; [done|]. apply (Hsrc (mkSource 0 "mic")).
  - by_decide.
  - vm_compute. discriminate.
Defined.

Lemma capturer_interrupt_report_witness :
  let r := capturer_interrupt list_order "X" first_snapshot in
  ("Connection killed" ∉ r.2) /\ pulse r.1 = busy_server.
Proof.
  cbv zeta.
  destruct (capturer_interrupt_report list_order "X" first_snapshot)
    as (Hone & _ & Halive & _).
  assert (newline +:+ "Connection left alive"
          ∈ (capturer_interrupt list_order "X" first_snapshot).2) as Hin by by_decide.
  split; [tauto|]. by destruct (Halive Hin).
Defined.

(** ** The connect pass and the consumers, as the index reads them *)

(** C5, as stated, fails: for a listed source named [X.monitor extra] the
    connect pass loads a loopback module that the index reads as the route
    from [X.monitor] into [X]. *)
Lemma capturer_connect_lookalike_source :
  let m := mkModule 0 "module-loopback" "source=X.monitor extra sink=X" in
  module_list lookalike_source = []
  /\ module_list (capturer_connect "X" lookalike_source) = [m]
  /\ is_route (monitor_of "X") "X" m
  /\ dict_keys (vsink_sources "X" (capturer_connect "X" lookalike_source))
     = [Some (monitor_of "X")].
Proof. cbv zeta. split_and!; [reflexivity|reflexivity|split; reflexivity|reflexivity]. Qed.

(** C5, amended: for every sink name and every source listing in which no
    source name holds a space, the connect pass never creates a loopback
    route whose source is the sink's own monitor [<name>.monitor] and whose
    target is that sink: no module it loads is such a route, and every
    such route listed afterwards was listed before. *)
Theorem capturer_connect_no_self_loop (name : string) (p : Pulse) :
  (forall src, src ∈ source_list p -> spaceless (src_name src)) ->
  exists created,
    module_list (capturer_connect name p) = module_list p ++ created
    /\ Forall (fun m => is_loopback m /\ exists src, src ∈ source_list p
                 /\ src_name src ≠ monitor_of name
                 /\ mod_argument m = loopback_args (src_name src) name) created
    /\ Forall (fun m => ¬ is_route (monitor_of name) name m) created
    /\ (forall m, m ∈ module_list (capturer_connect name p) ->
          is_route (monitor_of name) name m -> m ∈ module_list p).
Proof.
  intros Hsrc. destruct (capturer_connect_created name p) as (created & Hm & Hc & _).
  assert (Forall (fun m => ¬ is_route (monitor_of name) name m) created) as Hno.
  { eapply Forall_impl; [exact Hc|].
    intros m (_ & src & Hin & Hne & Ha) [_ Hr].
    assert (spaceless name) as Hn.
    { unfold route_pair in Hr. injection Hr as _ Ht.
      by apply parse_args_value_spaceless in Ht. }
    unfold route_pair, parse_args in Hr. rewrite Ha, loopback_args_items in Hr by auto.
    simpl in Hr. congruence. }
  exists created. split_and!; [done|done|done|].
  intros m Hin Hr. rewrite Hm in Hin. apply elem_of_app in Hin as [Hin|Hin]; [done|].
  rewrite Forall_forall in Hno. by destruct (Hno m Hin).
Qed.

Lemma capturer_connect_no_self_loop_witness :
  (forall src, src ∈ source_list fresh_server -> spaceless (src_name src))
  /\ exists created,
       module_list (capturer_connect "X" fresh_server) = module_list fresh_server ++ created
       /\ Forall (fun m => ¬ is_route (monitor_of "X") "X" m) created.
Proof.
  split; [exact fresh_server_spaceless|].
  destruct (capturer_connect_no_self_loop "X" fresh_server fresh_server_spaceless)
    as (created & Hm & _ & Hno & _).
  by exists created.
Defined.

(** C6, as stated, fails: two streams named [Recorder] read from the
    monitor of [X]; in listing order the first of them meets every
    condition and is not in the dictionary returned, and whatever the
    iteration order of the set, one of the two is not. *)
Lemma vsink_apps_same_name_left_out :
  (let c := mkSourceOutput 0 "Recorder" 1 in
   c ∈ source_output_list busy_server
   /\ Z.of_nat (so_source c) = vsink_source "X" busy_server
   /\ so_name c ≠ "Peak detect"
   /\ (c ∉ (vsink_apps list_order "X" busy_server).*2))
  /\ (forall set_order : forall A : Type, list A -> list A,
        (forall (A : Type) (l : list A), set_order A l ≡ₚ l) ->
        exists c, c ∈ source_output_list busy_server
          /\ Z.of_nat (so_source c) = vsink_source "X" busy_server
          /\ so_name c ≠ "Peak detect"
          /\ (c ∉ (vsink_apps set_order "X" busy_server).*2)).
Proof.
  split.
  - cbv zeta. split_and!; [by_decide|reflexivity|vm_compute; discriminate|].
    apply (bool_decide_unpack _). vm_compute. exact I.
  - intros set_order Hperm.
    set (c0 := mkSourceOutput 0 "Recorder" 1). set (c2 := mkSourceOutput 2 "Recorder" 1).
    assert (c0 ∈ source_output_list busy_server) as H0 by by_decide.
    assert (c2 ∈ source_output_list busy_server) as H2 by by_decide.
    assert (NoDup (vsink_apps set_order "X" busy_server).*1) as Hnd.
    { rewrite vsink_apps_eq. apply dict_of_keys_NoDup. }
    destruct (vsink_apps_lookup set_order Hperm "X" busy_server c0 H0 eq_refl)
      as [c' Hc']; [vm_compute; discriminate|].
    assert (forall c, so_name c = "Recorder" -> c ≠ c' ->
              c ∉ (vsink_apps set_order "X" busy_server).*2) as Hout.
    { intros c Hname Hne (kc & Hk & Hin)%list_elem_of_fmap. destruct kc as [k c1].
      simpl in Hk. subst c1.
      pose proof (vsink_apps_elem set_order Hperm _ _ _ _ Hin) as (-> & _).
      apply (dict_get_elem _ _ _ Hnd) in Hin. rewrite Hname in Hin.
      simpl in Hc'. congruence. }
    destruct (decide (c' = c0)) as [->|Hne].
    + exists c2. split_and!; [done|reflexivity|vm_compute; discriminate|].
      apply Hout; [done|discriminate].
    + exists c0. split_and!; [done|reflexivity|vm_compute; discriminate|].
      apply Hout; [done|]. by intros ->.
Qed.
